(** * eywa: connection engine, connection manager and connection status

    A shallow embedding of
      - connections/connection.go          (module [Connections]),
      - connections/connection_manager.go  (module [Manager]),
      - models/connection_status.go        (module [Models]),
    and the properties of the specification that concern them. *)

From Stdlib Require Import ZArith List String Ascii Bool Lia.
From stdpp Require Import base option gmap strings list fin_maps.

Local Open Scope Z_scope.

(** Result of running a piece of Go code: it returns, or it panics. *)
Inductive go_result (A : Type) : Type :=
| Returns (a : A)
| Panics.
Arguments Returns {A} a.
Arguments Panics {A}.

Definition go_bind {A B} (r : go_result A) (k : A -> go_result B) : go_result B :=
  match r with
  | Returns a => k a
  | Panics => Panics
  end.

(** Two's complement wrap-around of the fixed-width integer types. *)
Definition wrap32 (x : Z) : Z := x mod 2 ^ 32.
Definition wrap64 (x : Z) : Z := (x + 2 ^ 63) mod 2 ^ 64 - 2 ^ 63.

(* ===================================================================== *)
(** * connections/connection.go                                          *)
(* ===================================================================== *)

Module Connections.

(** ** Data *)

(** Modelled from the spec: the message type constants live in message.go,
    which is not among the sources; section 6 gives the wire values. *)
Definition AsyncRequestMessage : Z := 1.
Definition SyncRequestMessage : Z := 2.
Definition ResponseMessage : Z := 3.
Definition CloseMessage : Z := 4.

(** Error values.  [WebsocketError] is the struct type of the source; the
    other constructors are the [errors.New] values that [sendMessage] and
    [rListen] build, and [ErrOther] stands for an error returned by a
    collaborator ([Message.Marshal], [Unmarshal], [ws.Close]). *)
Inductive error : Type :=
| WebsocketError (message : string)
| ErrConnectionClosed               (* "connection is closed" *)
| ErrRequestTimedOut (timeout : Z)  (* "request timed out for <timeout>" *)
| ErrResponseTimedOut (timeout : Z) (* "response timed out for <timeout>" *)
| ErrUnexpectedResponse             (* "unexpected response messages received, ..." *)
| ErrOther (message : string).

(** The type assertion [_, ok := err.( *WebsocketError)]. *)
Definition isWebsocketError (e : error) : bool :=
  match e with WebsocketError _ => true | _ => false end.

(** [Message] of message.go: byte slices are strings of 8-bit characters. *)
Record Message : Type := mkMessage {
  MessageType : Z;
  MessageId : string;
  Payload : string
}.

(** [MessageResp]: both fields are pointers or interfaces, hence options. *)
Record MessageResp : Type := mkResp {
  resp_msg : option Message;
  resp_err : option error
}.

(** [MessageReq]: the result slot [respCh] is a channel; channels are
    heap objects, named here by their allocation number. *)
Record MessageReq : Type := mkReq {
  req_msg : Message;
  req_respCh : nat
}.

Record Timeouts : Type := mkTimeouts {
  Read : Z; Write : Z; Request : Z; Response : Z
}.

(** The part of [Config().WebSocketConnections] the engine reads. *)
Record Config : Type := mkConfig {
  RequestQueueSize : nat;
  timeouts : Timeouts
}.

(** ** strconv.FormatInt(i, 16) *)

(** The digit table of strconv. *)
Definition digits : string := "0123456789abcdefghijklmnopqrstuvwxyz".

Definition hex_digit (d : Z) : ascii :=
  match String.get (Z.to_nat d) digits with
  | Some c => c
  | None => "0"%char
  end.

(** [formatBits] for a power-of-two base: digits are produced from the
    least significant end, [u & 15] then [u >>= 4], until [u < 16]. A
    64-bit value has at most sixteen such digits. *)
Fixpoint formatBits (fuel : nat) (u : Z) (a : string) : string :=
  match fuel with
  | O => a
  | S fuel' =>
      if u <? 16 then String (hex_digit u) a
      else formatBits fuel' (Z.shiftr u 4) (String (hex_digit (Z.land u 15)) a)
  end.

Definition FormatInt16 (i : Z) : string :=
  if i <? 0 then String "-"%char (formatBits 16 (- i) EmptyString)
  else formatBits 16 i EmptyString.

(** ** Channels *)

(** Outcome of a channel send that does not wait: a buffered channel takes
    the value while it has room, a closed channel panics. *)
Inductive send_result (A : Type) : Type :=
| Sent (q : list A)
| WouldBlock
| SendPanics.
Arguments Sent {A} q.
Arguments WouldBlock {A}.
Arguments SendPanics {A}.

Definition chan_send {A} (cap : nat) (is_closed : bool) (q : list A) (v : A)
  : send_result A :=
  if is_closed then SendPanics
  else if (length q <? cap)%nat then Sent (q ++ [v])
  else WouldBlock.

(** ** The connection and its goroutines *)

(** [WebSocketConnection]: the fields the engine itself reads and writes.
    [closeOnce] is the done flag of the [sync.Once]; [msgChans] is the
    [syncRespChanMap]; [wch], [closewch] and [rch] are channels, each
    with its buffer and, where the code closes it, its closed flag. *)
Record WebSocketConnection : Type := mkConn {
  closeOnce : bool;
  closed : bool;
  lastPingedAt : Z;
  msgChans : gmap string nat;
  wch : list MessageReq;
  wch_closed : bool;
  closewch : list bool;
  rch_closed : bool
}.

(** A goroutine inside [sendMessage]. *)
Inductive sender : Type :=
| SEnqueue (req : MessageReq)              (* parked on the first select *)
| SWait (messageType : Z) (msgId : string) (respCh : nat)
                                           (* parked on the second select *)
| SDeferred (msgId : string) (respMsg : string) (err : option error)
                                           (* return reached, deferred delete to run *)
| SReturned (respMsg : string) (err : option error).

(** The goroutine running [wListen]. *)
Inductive writer_pc : Type :=
| WIdle                      (* at [req, more := <-c.wch] *)
| WWriting (req : MessageReq) (* in [c.sendWsMessage(req.msg)] *)
| WCallClose                 (* at [c.Close()] after a WebsocketError *)
| WClosing                   (* at [<-c.closewch] *)
| WDone.

(** The goroutine running [rListen]. *)
Inductive reader_pc : Type :=
| RLoop                               (* at the select on [c.rch] *)
| RReading                            (* in [c.readWsMessage()] *)
| RFound (ch : nat) (m : Message)     (* after [find], at [delete] *)
| RDeliver (ch : nat) (m : Message)   (* after [delete], at [ch <- ...] *)
| RHandle (m : Message)               (* after the delivery, at [c.h] *)
| RCallClose                          (* at [c.Close()] *)
| RDone.

(** What an observer of the connection can see happen. *)
Inductive event : Type :=
| EvHandler (m : option Message) (e : option error) (* c.h(c, m, e) *)
| EvTransmit (m : Message) (e : option error)       (* sendWsMessage(m) = e *)
| EvPut (msgId : string) (ch : nat)                 (* msgChans.put *)
| EvDelete (msgId : string)                         (* msgChans.delete *)
| EvDeliver (ch : nat) (r : MessageResp)            (* ch <- r *)
| EvUpdateRegistry                                  (* c.shard.updateRegistry(c) *)
| EvCloseCall                                       (* c.Close() entered *)
| EvSetClosed                                       (* c.closed = true *)
| EvCloseWch                                        (* close(c.wch) *)
| EvCloseRch                                        (* close(c.rch) *)
| EvCloseSignal                                     (* c.closewch <- true *)
| EvUnregister.                                     (* c.shard.unregister(c) *)

(** The connection together with the result slots allocated so far, its
    goroutines, the clock and the trace of events. *)
Record state : Type := mkState {
  conn : WebSocketConnection;
  chans : gmap nat (list MessageResp);
  next_chan : nat;
  senders : gmap nat sender;
  writer : writer_pc;
  reader : reader_pc;
  now : Z;
  trace : list event;
  config : Config
}.

Definition with_conn (f : WebSocketConnection -> WebSocketConnection) (s : state) : state :=
  mkState (f (conn s)) (chans s) (next_chan s) (senders s) (writer s) (reader s)
          (now s) (trace s) (config s).
Definition with_chans (f : gmap nat (list MessageResp) -> gmap nat (list MessageResp))
  (s : state) : state :=
  mkState (conn s) (f (chans s)) (next_chan s) (senders s) (writer s) (reader s)
          (now s) (trace s) (config s).
Definition with_next_chan (n : nat) (s : state) : state :=
  mkState (conn s) (chans s) n (senders s) (writer s) (reader s)
          (now s) (trace s) (config s).
Definition with_sender (tid : nat) (p : sender) (s : state) : state :=
  mkState (conn s) (chans s) (next_chan s) (<[tid := p]> (senders s)) (writer s)
          (reader s) (now s) (trace s) (config s).
Definition with_writer (w : writer_pc) (s : state) : state :=
  mkState (conn s) (chans s) (next_chan s) (senders s) w (reader s)
          (now s) (trace s) (config s).
Definition with_reader (r : reader_pc) (s : state) : state :=
  mkState (conn s) (chans s) (next_chan s) (senders s) (writer s) r
          (now s) (trace s) (config s).
Definition with_now (t : Z) (s : state) : state :=
  mkState (conn s) (chans s) (next_chan s) (senders s) (writer s) (reader s)
          t (trace s) (config s).
Definition emit (evs : list event) (s : state) : state :=
  mkState (conn s) (chans s) (next_chan s) (senders s) (writer s) (reader s)
          (now s) (trace s ++ evs) (config s).

Definition set_msgChans (m : gmap string nat) (c : WebSocketConnection) :=
  mkConn (closeOnce c) (closed c) (lastPingedAt c) m (wch c) (wch_closed c)
         (closewch c) (rch_closed c).
Definition set_wch (q : list MessageReq) (c : WebSocketConnection) :=
  mkConn (closeOnce c) (closed c) (lastPingedAt c) (msgChans c) q (wch_closed c)
         (closewch c) (rch_closed c).
Definition set_closewch (q : list bool) (c : WebSocketConnection) :=
  mkConn (closeOnce c) (closed c) (lastPingedAt c) (msgChans c) (wch c) (wch_closed c)
         q (rch_closed c).
Definition set_lastPingedAt (t : Z) (c : WebSocketConnection) :=
  mkConn (closeOnce c) (closed c) t (msgChans c) (wch c) (wch_closed c)
         (closewch c) (rch_closed c).

(** ** syncRespChanMap *)

Definition put (msgId : string) (ch : nat) (s : state) : state :=
  emit [EvPut msgId ch] (with_conn (fun c => set_msgChans (<[msgId := ch]> (msgChans c)) c) s).

Definition find (msgId : string) (s : state) : option nat :=
  msgChans (conn s) !! msgId.

Definition delete (msgId : string) (s : state) : state :=
  emit [EvDelete msgId]
       (with_conn (fun c => set_msgChans (base.delete msgId (msgChans c)) c) s).

Definition len (s : state) : nat := size (msgChans (conn s)).

(** A send on a result slot; slots are made with capacity 1 and are never
    closed.  [None]: the sending goroutine would have to wait. *)
Definition deliver (ch : nat) (r : MessageResp) (s : state) : option state :=
  match chans s !! ch with
  | Some q =>
      match chan_send 1 false q r with
      | Sent q' => Some (emit [EvDeliver ch r] (with_chans (<[ch := q']>) s))
      | _ => None
      end
  | None => None
  end.

(** ** Close *)

(** [Close]: the body runs under [closeOnce.Do].  The send on [closewch]
    (capacity 1) is the only statement of the body that can wait; [None]
    says that it would. *)
Definition Close_body (s : state) : option state :=
  let c := conn s in
  match chan_send 1 false (closewch c) true with
  | Sent q =>
      Some (emit [EvSetClosed; EvCloseWch; EvCloseRch; EvCloseSignal; EvUnregister]
              (with_conn (fun c => mkConn true true (lastPingedAt c) (msgChans c)
                                     (wch c) true q true) s))
  | _ => None
  end.

Definition Close (s : state) : option state :=
  let s := emit [EvCloseCall] s in
  if closeOnce (conn s) then Some s else Close_body s.

(** ** sendMessage *)

(** The send case of the first select, [c.wch <- &MessageReq{...}]: the
    request enters the inbox and the caller goes on to the second select,
    or the caller parks, or the inbox is closed and the send panics. *)
Definition enqueue (req : MessageReq) (s : state) : go_result (sender * state) :=
  match chan_send (RequestQueueSize (config s)) (wch_closed (conn s))
                  (wch (conn s)) req with
  | Sent q =>
      Returns (SWait (MessageType (req_msg req)) (MessageId (req_msg req))
                     (req_respCh req),
               with_conn (set_wch q) s)
  | WouldBlock => Returns (SEnqueue req, s)
  | SendPanics => Panics
  end.

(** The first deferred function of [sendMessage]:
    [if r := recover(); r != nil { err = errors.New("connection is closed") }].
    [respMsg] still holds the empty slice it was initialised with. *)
Definition recover (s : state) (r : go_result (sender * state))
  : go_result (sender * state) :=
  match r with
  | Panics => Returns (SReturned EmptyString (Some ErrConnectionClosed), s)
  | Returns a => Returns a
  end.

(** Entry of [sendMessage] up to the first select: the id is the clock in
    base 16, the result slot is a fresh channel of capacity 1. *)
Definition sendMessage_begin (messageType : Z) (payload : string) (s : state)
  : go_result (sender * state) :=
  let msgId := FormatInt16 (now s) in
  let msg := mkMessage messageType msgId payload in
  let respCh := next_chan s in
  let s1 := with_next_chan (S respCh) (with_chans (<[respCh := []]>) s) in
  recover s1 (enqueue (mkReq msg respCh) s1).

(** The timeout of the second select: [timeout] is reassigned to
    [Timeouts.Response] for a synchronous request only. *)
Definition wait_timeout (messageType : Z) (s : state) : Z :=
  if messageType =? SyncRequestMessage then Response (timeouts (config s))
  else Request (timeouts (config s)).

(** Leaving the second select with [(respMsg, err)]: a synchronous request
    has its deferred [c.msgChans.delete(msgId)] still to run. *)
Definition finish (messageType : Z) (msgId : string) (respMsg : string)
  (err : option error) : sender :=
  if messageType =? SyncRequestMessage then SDeferred msgId respMsg err
  else SReturned respMsg err.

(** [case resp := <-respCh]. *)
Definition receive (messageType : Z) (msgId : string) (resp : MessageResp) : sender :=
  let respMsg := match resp_msg resp with
                 | Some m => Payload m
                 | None => EmptyString
                 end in
  finish messageType msgId respMsg (resp_err resp).

(** ** sendWsMessage and readWsMessage *)

(** What the transport and the codec answer during one [sendWsMessage]:
    [SetWriteDeadline], [Message.Marshal], [WriteMessage] and [ws.Close]. *)
Record ws_write : Type := mkWrite {
  SetWriteDeadline : option string;
  Marshal : option error;
  WriteMessage : option string;
  wsClose : option error
}.

Definition sendWsMessage (o : ws_write) (message : Message) : option error :=
  match SetWriteDeadline o with
  | Some e => Some (WebsocketError ("error setting write deadline, " ++ e))
  | None =>
      if MessageType message =? CloseMessage then wsClose o
      else match Marshal o with
           | Some e => Some e
           | None =>
               match WriteMessage o with
               | Some e => Some (WebsocketError e)
               | None => None
               end
           end
  end.

(** What the transport and the codec answer during one [readWsMessage]. *)
Inductive ws_read : Type :=
| DeadlineFails (e : string)              (* SetReadDeadline fails *)
| ReadFails (e : string)                  (* ReadMessage fails *)
| ReadsClose                              (* a websocket close frame *)
| ReadsBody (decoded : Message + error).  (* Unmarshal(messageBody) *)

Definition touch (s : state) : state :=
  emit [EvUpdateRegistry] (with_conn (set_lastPingedAt (now s)) s).

Definition readWsMessage (r : ws_read) (s : state) : state * (Message + error) :=
  match r with
  | DeadlineFails e =>
      (s, inr (WebsocketError ("error setting read deadline, " ++ e)))
  | ReadFails e =>
      (s, inr (WebsocketError ("error reading message, " ++ e)))
  | ReadsClose =>
      (touch s, inl (mkMessage CloseMessage EmptyString EmptyString))
  | ReadsBody d => (touch s, d)
  end.

(** ** One step of one goroutine *)

Inductive action : Type :=
| Tick (d : Z)                 (* the clock advances by [d] nanoseconds *)
| Send (tid : nat) (messageType : Z) (payload : string)
                               (* goroutine [tid] calls [sendMessage] *)
| Enq (tid : nat)              (* first select, send case, after parking *)
| Timer (tid : nat)            (* the [time.After] case of the pending select *)
| Recv (tid : nat)             (* second select, [<-respCh] *)
| Defer (tid : nat)            (* the deferred delete, then the return *)
| WRecv                        (* writer: [<-c.wch] *)
| WWrite (o : ws_write)        (* writer: sendWsMessage and what follows *)
| WClose                       (* writer: [c.Close()] *)
| WFinish (o : ws_write)       (* writer: [<-c.closewch], close frame, return *)
| RStep                        (* reader: the next statement *)
| RRead (r : ws_read)          (* reader: readWsMessage and the dispatch *)
| CallClose.                   (* [Close()] called from the shard or the manager *)

(** [Next s]: the step was taken.  [Stuck]: the goroutine is not at that
    statement, or it has to wait.  [Crash]: a panic left its goroutine. *)
Inductive outcome : Type :=
| Next (s : state)
| Stuck
| Crash.

Definition of_option (o : option state) : outcome :=
  match o with Some s => Next s | None => Stuck end.

Definition step_send (tid : nat) (r : go_result (sender * state)) : outcome :=
  match r with
  | Returns (p, s) => Next (with_sender tid p s)
  | Panics => Crash
  end.

Definition step_writer (o : ws_write) (req : MessageReq) (s : state) : option state :=
  let err := sendWsMessage o (req_msg req) in
  let s := emit [EvTransmit (req_msg req) err] s in
  match err with
  | Some e =>
      s ← deliver (req_respCh req) (mkResp None (Some e)) s;
      Some (with_writer (if isWebsocketError e then WCallClose else WIdle) s)
  | None =>
      if MessageType (req_msg req) =? SyncRequestMessage
      then Some (with_writer WIdle (put (MessageId (req_msg req)) (req_respCh req) s))
      else s ← deliver (req_respCh req) (mkResp None None) s;
           Some (with_writer WIdle s)
  end.

Definition step_reader_read (r : ws_read) (s : state) : state :=
  let '(s, res) := readWsMessage r s in
  match res with
  | inr err =>
      with_reader (if isWebsocketError err then RCallClose else RLoop)
                  (emit [EvHandler None (Some err)] s)
  | inl message =>
      if MessageType message =? CloseMessage
      then with_reader RCallClose (emit [EvHandler (Some message) None] s)
      else if MessageType message =? ResponseMessage
      then match find (MessageId message) s with
           | Some ch => with_reader (RFound ch message) s
           | None =>
               with_reader RLoop
                 (emit [EvHandler (Some message) (Some ErrUnexpectedResponse)] s)
           end
      else with_reader RLoop (emit [EvHandler (Some message) None] s)
  end.

Definition step_reader (s : state) : option state :=
  match reader s with
  | RLoop => Some (with_reader (if rch_closed (conn s) then RDone else RReading) s)
  | RFound ch m => Some (with_reader (RDeliver ch m) (delete (MessageId m) s))
  | RDeliver ch m =>
      s ← deliver ch (mkResp (Some m) None) s; Some (with_reader (RHandle m) s)
  | RHandle m => Some (with_reader RLoop (emit [EvHandler (Some m) None] s))
  | RCallClose => s ← Close s; Some (with_reader RDone s)
  | RReading | RDone => None
  end.

Definition step (a : action) (s : state) : outcome :=
  match a with
  | Tick d => if 0 <=? d then Next (with_now (now s + d) s) else Stuck
  | Send tid messageType payload =>
      match senders s !! tid with
      | None => step_send tid (sendMessage_begin messageType payload s)
      | Some _ => Stuck
      end
  | Enq tid =>
      match senders s !! tid with
      | Some (SEnqueue req) =>
          match enqueue req s with
          | Returns (SEnqueue _, _) => Stuck
          | r => step_send tid (recover s r)
          end
      | _ => Stuck
      end
  | Timer tid =>
      match senders s !! tid with
      | Some (SEnqueue req) =>
          match enqueue req s with
          | Returns (SEnqueue _, _) =>
              Next (with_sender tid
                      (SReturned EmptyString
                         (Some (ErrRequestTimedOut (Request (timeouts (config s)))))) s)
          | _ => Stuck
          end
      | Some (SWait messageType msgId respCh) =>
          match chans s !! respCh with
          | Some [] =>
              Next (with_sender tid
                      (finish messageType msgId EmptyString
                         (Some (ErrResponseTimedOut (wait_timeout messageType s)))) s)
          | _ => Stuck
          end
      | _ => Stuck
      end
  | Recv tid =>
      match senders s !! tid with
      | Some (SWait messageType msgId respCh) =>
          match chans s !! respCh with
          | Some (resp :: q) =>
              Next (with_sender tid (receive messageType msgId resp)
                      (with_chans (<[respCh := q]>) s))
          | _ => Stuck
          end
      | _ => Stuck
      end
  | Defer tid =>
      match senders s !! tid with
      | Some (SDeferred msgId respMsg err) =>
          Next (with_sender tid (SReturned respMsg err) (delete msgId s))
      | _ => Stuck
      end
  | WRecv =>
      match writer s with
      | WIdle =>
          match wch (conn s) with
          | req :: q => Next (with_writer (WWriting req) (with_conn (set_wch q) s))
          | [] => if wch_closed (conn s) then Next (with_writer WClosing s) else Stuck
          end
      | _ => Stuck
      end
  | WWrite o =>
      match writer s with
      | WWriting req => of_option (step_writer o req s)
      | _ => Stuck
      end
  | WClose =>
      match writer s with
      | WCallClose => of_option (s ← Close s; Some (with_writer WIdle s))
      | _ => Stuck
      end
  | WFinish o =>
      match writer s with
      | WClosing =>
          match closewch (conn s) with
          | _ :: q =>
              let m := mkMessage CloseMessage EmptyString EmptyString in
              Next (with_writer WDone
                      (emit [EvTransmit m (sendWsMessage o m)]
                         (with_conn (set_closewch q) s)))
          | [] => Stuck
          end
      | _ => Stuck
      end
  | RStep => of_option (step_reader s)
  | RRead r =>
      match reader s with
      | RReading => Next (step_reader_read r s)
      | _ => Stuck
      end
  | CallClose => of_option (Close s)
  end.

(** A schedule is the order in which the goroutines take their steps. *)
Fixpoint run (sched : list action) (s : state) : outcome :=
  match sched with
  | [] => Next s
  | a :: sched' =>
      match step a s with
      | Next s' => run sched' s'
      | o => o
      end
  end.

(** The connection as [newConnection] builds it and [Start] launches it. *)
Definition init (cfg : Config) (t : Z) : state :=
  mkState (mkConn false false t ∅ [] false [] false) ∅ 0 ∅ WIdle RLoop t [] cfg.

Definition reachable (cfg : Config) (t : Z) (s : state) : Prop :=
  ∃ sched, run sched (init cfg t) = Next s.

(** The public send operations. *)
Definition SendAsyncRequest (tid : nat) (msg : string) : action :=
  Send tid AsyncRequestMessage msg.
Definition SendResponse (tid : nat) (msg : string) : action :=
  Send tid ResponseMessage msg.
Definition SendSyncRequest (tid : nat) (msg : string) : action :=
  Send tid SyncRequestMessage msg.

(** What [sendMessage] has returned to goroutine [tid], if it has. *)
Definition returned (tid : nat) (s : state) : option (string * option error) :=
  match senders s !! tid with
  | Some (SReturned respMsg err) => Some (respMsg, err)
  | _ => None
  end.

(** The message id a goroutine inside [sendMessage] has allocated. *)
Definition allocated_id (p : sender) : option string :=
  match p with
  | SEnqueue req => Some (MessageId (req_msg req))
  | SWait _ msgId _ => Some msgId
  | SDeferred msgId _ _ => Some msgId
  | SReturned _ _ => None
  end.

(** ** A sample connection *)

(** A configuration with an inbox of eight requests and the response
    timeout of the boundary scenarios (100 ms, in nanoseconds), a transport
    on which every operation succeeds, and one whose write fails. *)
Definition cfg0 : Config :=
  mkConfig 8 (mkTimeouts 60000000000 10000000000 5000000000 100000000).

Definition okw : ws_write := mkWrite None None None None.

Definition badw : ws_write := mkWrite None None (Some "broken pipe") None.

(** The state a schedule leads to from a connection started at time 1000. *)
Definition state_after (sched : list action) : state :=
  match run sched (init cfg0 1000) with
  | Next s => s
  | _ => init cfg0 1000
  end.

(** The schedule runs to its end: no step of it is stuck and none crashes. *)
Definition completes (sched : list action) : bool :=
  match run sched (init cfg0 1000) with
  | Next _ => true
  | _ => false
  end.

(** The response timer of a synchronous request fires while the writer is
    still transmitting the frame. *)
Definition late_write : list action :=
  [SendSyncRequest 0 "ping"; WRecv; Timer 0; Defer 0; WWrite okw].

(** One asynchronous request, up to the return of the call, on a transport
    whose write succeeds and on one whose write fails. *)
Definition async_ok : list action :=
  [SendAsyncRequest 0 "x"; WRecv; WWrite okw; Recv 0].

Definition async_bad : list action :=
  [SendAsyncRequest 0 "x"; WRecv; WWrite badw; Recv 0].

(** Two synchronous requests that read the same clock value. *)
Definition same_tick : list action :=
  [SendSyncRequest 0 "a"; SendSyncRequest 1 "b"].

(** ** Observations on the trace *)

Definition is_close_effect (e : event) : bool :=
  match e with
  | EvSetClosed | EvCloseWch | EvCloseRch | EvCloseSignal | EvUnregister => true
  | _ => false
  end.

Definition is_close_call (e : event) : bool :=
  match e with EvCloseCall => true | _ => false end.

(** The side effects of the body of [Close] that have happened, in order,
    and the number of calls of [Close]. *)
Definition close_effects (s : state) : list event :=
  List.filter is_close_effect (trace s).

Definition close_calls (s : state) : nat :=
  length (List.filter is_close_call (trace s)).

Definition body_effects : list event :=
  [EvSetClosed; EvCloseWch; EvCloseRch; EvCloseSignal; EvUnregister].

(** The flags that [Close] sets move together, and the body has run
    exactly when the [sync.Once] is done. *)
Definition close_inv (s : state) : Prop :=
  let c := conn s in
  closed c = closeOnce c ∧ wch_closed c = closeOnce c ∧ rch_closed c = closeOnce c ∧
  if closeOnce c
  then close_effects s = body_effects ∧ (0 < close_calls s)%nat
  else close_effects s = [] ∧ close_calls s = 0%nat ∧ closewch c = [].

(** What [close_inv] looks at, [closewch] apart. *)
Definition close_view (s : state) :=
  (closeOnce (conn s), closed (conn s), wch_closed (conn s), rch_closed (conn s),
   close_effects s, close_calls s).

(** One step keeps the invariant and never resets the [sync.Once]. *)
Definition close_step (s s' : state) : Prop :=
  close_inv s' ∧ (closeOnce (conn s) = true → closeOnce (conn s') = true).

(** ** Who holds a result slot *)

(** A result slot travels: from the caller parked on the inbox, through
    the inbox and the writer, into [msgChans], and to the reader that
    resolves it. *)
Inductive owner : Type :=
| OQueue (i : nat)        (* the request at position [i] of [wch] *)
| OWriter                 (* the request the writer is transmitting *)
| OSender (tid : nat)     (* the request of a caller parked on [wch] *)
| OMap (msgId : string)   (* the entry of [msgChans] under [msgId] *)
| OReader.                (* the reader, between [delete] and the delivery *)

(** The slot a holder holds. *)
Definition held (s : state) (o : owner) : option nat :=
  match o with
  | OQueue i => req_respCh <$> wch (conn s) !! i
  | OWriter => match writer s with WWriting req => Some (req_respCh req) | _ => None end
  | OSender tid =>
      match senders s !! tid with
      | Some (SEnqueue req) => Some (req_respCh req)
      | _ => None
      end
  | OMap msgId => msgChans (conn s) !! msgId
  | OReader => match reader s with RDeliver ch _ => Some ch | _ => None end
  end.

Definition owns (s : state) (o : owner) (ch : nat) : Prop := held s o = Some ch.

(** A slot has one holder at a time, a held slot is empty, and the slot
    the reader has just looked up is held by its map entry or by nobody. *)
Record slots_inv (s : state) : Prop := mkSlotsInv {
  slot_unique : ∀ o o' ch, owns s o ch → owns s o' ch → o = o';
  slot_empty : ∀ o ch, owns s o ch → chans s !! ch = Some [] ∧ (ch < next_chan s)%nat;
  slot_found : ∀ ch m, reader s = RFound ch m →
    chans s !! ch = Some [] ∧ (ch < next_chan s)%nat ∧
    ∀ o, owns s o ch → o = OMap (MessageId m)
}.

(** ** Reading a base-16 numeral back *)

Definition hex_value (c : ascii) : Z :=
  let n := Z.of_nat (nat_of_ascii c) in
  if n <? 58 then n - 48 else n - 87.

Fixpoint parse_hex (acc : Z) (s : string) : Z :=
  match s with
  | EmptyString => acc
  | String c s' => parse_hex (acc * 16 + hex_value c) s'
  end.

Definition int64 (i : Z) : Prop := - 2 ^ 63 <= i < 2 ^ 63.

End Connections.

(* ===================================================================== *)
(** * connections/connection_manager.go                                  *)
(* ===================================================================== *)

Module Manager.

(** ** murmur3.New32, Write, Sum32 *)

(** Modelled from the spec: the vendored murmur3 package is not among the
    sources; section 4.5 names Murmur3/32.  This is MurmurHash3_x86_32 with
    seed 0, as [New32] sets it up: [Write] mixes the whole 4-byte blocks,
    [Sum32] mixes the tail and finalises. *)
Definition c1_32 : Z := 0xcc9e2d51.
Definition c2_32 : Z := 0x1b873593.

Definition rotl32 (x r : Z) : Z :=
  wrap32 (Z.lor (Z.shiftl x r) (Z.shiftr x (32 - r))).

Definition mix_k1 (k1 : Z) : Z :=
  wrap32 (rotl32 (wrap32 (k1 * c1_32)) 15 * c2_32).

Fixpoint bmix (h1 : Z) (p : list Z) : Z * list Z :=
  match p with
  | b0 :: b1 :: b2 :: b3 :: rest =>
      let k1 := Z.lor (Z.lor b0 (Z.shiftl b1 8))
                      (Z.lor (Z.shiftl b2 16) (Z.shiftl b3 24)) in
      let h1 := Z.lxor h1 (mix_k1 k1) in
      let h1 := rotl32 h1 13 in
      bmix (wrap32 (h1 * 5 + 0xe6546b64)) rest
  | tail => (h1, tail)
  end.

Definition fmix32 (h1 : Z) : Z :=
  let h1 := Z.lxor h1 (Z.shiftr h1 16) in
  let h1 := wrap32 (h1 * 0x85ebca6b) in
  let h1 := Z.lxor h1 (Z.shiftr h1 13) in
  let h1 := wrap32 (h1 * 0xc2b2ae35) in
  Z.lxor h1 (Z.shiftr h1 16).

Definition Sum32 (data : list Z) : Z :=
  let '(h1, tail) := bmix 0 data in
  let h1 :=
    match tail with
    | [t0] => Z.lxor h1 (mix_k1 t0)
    | [t0; t1] => Z.lxor h1 (mix_k1 (Z.lxor (Z.shiftl t1 8) t0))
    | [t0; t1; t2] =>
        Z.lxor h1 (mix_k1 (Z.lxor (Z.lxor (Z.shiftl t2 16) (Z.shiftl t1 8)) t0))
    | _ => h1
    end in
  fmix32 (Z.lxor h1 (wrap32 (Z.of_nat (length data)))).

(** [[]byte(id)]. *)
Definition bytes (id : string) : list Z :=
  map (fun a => Z.of_nat (nat_of_ascii a)) (list_ascii_of_string id).

(** ** Shards *)

(** Modelled from the spec: shard.go is not among the sources.  Section 4.4:
    a shard maps an identifier to at most one connection.  Connections are
    heap objects, named here by their allocation number. *)
Record shard : Type := mkShard {
  wsconns : gmap string nat
}.

(** Modelled from the spec: [shard.unregister] of the missing shard.go,
    "remove only if the stored pointer equals conn". *)
Definition unregister (id : string) (c : nat) (sh : shard) : shard :=
  match wsconns sh !! id with
  | Some c' => if decide (c' = c) then mkShard (delete id (wsconns sh)) else sh
  | None => sh
  end.

(** Modelled from the spec: [shard.register] of the missing shard.go, "if
    identifier already present: close the existing connection and insert
    the new one; then registry.update(conn); returns RegistryFailure if
    the registry refuses".  The second component is the connection that
    was closed; its [Close] unregisters it, which the pointer test of
    [unregister] turns into a no-op once the new one is stored. *)
Definition register (id : string) (c : nat) (registry_ok : bool) (sh : shard)
  : shard * option nat * bool :=
  let evicted := wsconns sh !! id in
  let sh := mkShard (<[id := c]> (wsconns sh)) in
  let sh := match evicted with
            | Some old => unregister id old sh
            | None => sh
            end in
  (sh, evicted, registry_ok).

(** Modelled from the spec: [shard.findConnection] and [shard.Count] of
    the missing shard.go, "read-only lookup" and "size of the map". *)
Definition shard_findConnection (id : string) (sh : shard) : option nat :=
  wsconns sh !! id.

Definition Count (sh : shard) : nat := size (wsconns sh).

(** ** The manager *)

Record WebSocketConnectionManager : Type := mkWscm {
  closed : bool;
  shards : list shard
}.

Inductive manager_error : Type :=
| closedWscmErr       (* "connection manager is closed" *)
| RegistryFailure.    (* the error of registry.update *)

(** [newWebSocketConnectionManager] with the in-memory registry, whose
    [Ping] succeeds: [NShards] shards with empty maps. *)
Definition newWebSocketConnectionManager (NShards : nat) : WebSocketConnectionManager :=
  mkWscm false (replicate NShards (mkShard ∅)).

(** [hasher.Sum32() % uint32(len(wscm.shards))]: the remainder of a
    division by zero panics. *)
Definition shard_index (id : string) (m : WebSocketConnectionManager) : go_result nat :=
  let n := wrap32 (Z.of_nat (length (shards m))) in
  if n =? 0 then Panics else Returns (Z.to_nat (Sum32 (bytes id) mod n)).

(** [wscm.shards[i]]: an index out of range panics. *)
Definition shard_at (i : nat) (m : WebSocketConnectionManager) : go_result shard :=
  match shards m !! i with
  | Some sh => Returns sh
  | None => Panics
  end.

(** [newConnection]: [c] is the connection the function allocates,
    [registry_ok] is whether the registry accepts the update.  On a
    registry failure the new connection is closed, which unregisters it. *)
Definition newConnection (id : string) (c : nat) (registry_ok : bool)
  (m : WebSocketConnectionManager)
  : go_result (WebSocketConnectionManager * (nat + manager_error)) :=
  if closed m then Returns (m, inr closedWscmErr)
  else
    go_bind (shard_index id m) (fun i =>
    go_bind (shard_at i m) (fun sh =>
      let '(sh, _, ok) := register id c registry_ok sh in
      if ok then Returns (mkWscm (closed m) (<[i := sh]> (shards m)), inl c)
      else Returns (mkWscm (closed m) (<[i := unregister id c sh]> (shards m)),
                    inr RegistryFailure))).

Definition findConnection (id : string) (m : WebSocketConnectionManager)
  : go_result (option nat) :=
  go_bind (shard_index id m) (fun i =>
  go_bind (shard_at i m) (fun sh => Returns (shard_findConnection id sh))).

Definition count (m : WebSocketConnectionManager) : nat :=
  foldl (fun sum sh => (sum + Count sh)%nat) 0%nat (shards m).

(** [close]: sets the flag and closes every shard; section 4.4 has a
    closed shard end with an empty map. *)
Definition close (m : WebSocketConnectionManager) : WebSocketConnectionManager :=
  mkWscm true (map (fun _ => mkShard ∅) (shards m)).

(** [conn.Close()] for a connection made by [newConnection]: its [shard]
    field is the shard its identifier hashed to, and [Close] unregisters
    the connection there. *)
Definition closeConnection (id : string) (c : nat) (m : WebSocketConnectionManager)
  : go_result WebSocketConnectionManager :=
  go_bind (shard_index id m) (fun i =>
  go_bind (shard_at i m) (fun sh =>
    Returns (mkWscm (closed m) (<[i := unregister id c sh]> (shards m))))).

(** What callers do with a manager.  [newConnection] allocates its
    connection: the sequence of calls carries the allocation counter. *)
Inductive op : Type :=
| OpNew (id : string) (registry_ok : bool)
| OpCloseConnection (id : string) (c : nat)
| OpClose.

Definition apply_op (o : op) (w : WebSocketConnectionManager * nat)
  : go_result (WebSocketConnectionManager * nat) :=
  let '(m, next) := w in
  match o with
  | OpNew id ok =>
      go_bind (newConnection id next ok m) (fun r => Returns (fst r, S next))
  | OpCloseConnection id c =>
      go_bind (closeConnection id c m) (fun m => Returns (m, next))
  | OpClose => Returns (close m, next)
  end.

Fixpoint apply_ops (ops : list op) (w : WebSocketConnectionManager * nat)
  : go_result (WebSocketConnectionManager * nat) :=
  match ops with
  | [] => Returns w
  | o :: ops' => go_bind (apply_op o w) (apply_ops ops')
  end.

(** The connections stored in the shards were allocated before [next]. *)
Definition allocated (next : nat) (m : WebSocketConnectionManager) : Prop :=
  ∀ (i : nat) (sh : shard) (id : string) (c : nat),
    shards m !! i = Some sh → wsconns sh !! id = Some c → (c < next)%nat.

(** Every stored connection sits in the shard its identifier hashes to. *)
Definition routed (m : WebSocketConnectionManager) : Prop :=
  ∀ (i : nat) (sh : shard) (id : string) (c : nat),
    shards m !! i = Some sh → wsconns sh !! id = Some c →
    shard_index id m = Returns i.

(** The manager and the allocation counter a sequence of calls leads to,
    from a new manager of [NShards] shards. *)
Definition world_after (NShards : nat) (ops : list op)
  : WebSocketConnectionManager * nat :=
  match apply_ops ops (newWebSocketConnectionManager NShards, 0%nat) with
  | Returns w => w
  | Panics => (newWebSocketConnectionManager NShards, 0%nat)
  end.

(** Two devices connect, the second one disconnects. *)
Definition two_devices : list op :=
  [OpNew "dev-1" true; OpNew "dev-2" true; OpCloseConnection "dev-2" 1].

(** The number of shards is not zero as a uint32. *)
Definition live (m : WebSocketConnectionManager) : Prop :=
  wrap32 (Z.of_nat (length (shards m))) ≠ 0.

Definition wf (next : nat) (m : WebSocketConnectionManager) : Prop :=
  live m ∧ routed m ∧ allocated next m.

End Manager.

(* ===================================================================== *)
(** * models/connection_status.go                                        *)
(* ===================================================================== *)

Module Models.

(** ** Time *)

(** [time.Time]: seconds since January 1 of year 1, 00:00:00 UTC, and the
    nanoseconds within the second.  The zero value is that instant. *)
Record Time : Type := mkTime {
  sec : Z;
  nsec : Z
}.

Definition zeroTime : Time := mkTime 0 0.

Definition IsZero (t : Time) : bool := (sec t =? 0) && (nsec t =? 0).

(** Seconds from year 1 to 1970. *)
Definition unixToInternal : Z := (1969 * 365 + 1969 / 4 - 1969 / 100 + 1969 / 400) * 86400.

(** [t.UnixNano()], an int64. *)
Definition UnixNano (t : Time) : Z :=
  wrap64 ((sec t - unixToInternal) * 1000000000 + nsec t).

(** [time.Unix(sec, nsec)]: [nsec] outside [0, 1e9) is carried into [sec]. *)
Definition Unix (s n : Z) : Time :=
  mkTime (s + n / 1000000000 + unixToInternal) (n mod 1000000000).

(** [time.Millisecond], a [time.Duration] in nanoseconds. *)
Definition Millisecond : Z := 1000000.

(** Modelled from the spec: the helpers of the utils package are not among
    the sources; "timestamps and durations are milliseconds".  Go's integer
    division truncates toward zero. *)
Definition NanoToMilli (nano : Z) : Z := Z.quot nano Millisecond.
Definition MilliSecToSec (milli : Z) : Z := Z.quot milli 1000.
Definition MilliSecToNano (milli : Z) : Z := wrap64 (Z.rem milli 1000 * Millisecond).

(** ** JSON documents *)

(** A JSON document as a tree; an object is the map of its keys.  Numbers
    are integers: the ones written are int64 values, and of the ones read
    only the integer part survives [int64(x.(float64))]. *)
#[warnings="-register-all"]
Inductive json : Type :=
| JNull
| JBool (b : bool)
| JNumber (n : Z)
| JString (s : string)
| JArray (l : list json)
| JObject (m : gmap string json).

(** ** ConnectionHistory *)

Record ConnectionHistory : Type := mkHistory {
  Ip : string;
  RequestId : string;
  Activity : string;
  Timestamp : Time;
  h_ConnectionType : string;
  h_Duration : Z
}.

(** [if cond { j[k] = v }]. *)
Definition set_if (cond : bool) (k : string) (v : json) (j : gmap string json)
  : gmap string json :=
  if cond then <[k := v]> j else j.

Definition nonempty (s : string) : bool := (0 <? String.length s)%nat.

(** [ConnectionHistory.MarshalJSON]: the map handed to [json.Marshal]. *)
Definition history_map (h : ConnectionHistory) : gmap string json :=
  let j := ∅ in
  let j := set_if (nonempty (Ip h)) "ip" (JString (Ip h)) j in
  let j := set_if (nonempty (RequestId h)) "request_id" (JString (RequestId h)) j in
  let j := set_if (nonempty (Activity h)) "activity" (JString (Activity h)) j in
  let j := set_if (nonempty (h_ConnectionType h)) "connection_type"
                  (JString (h_ConnectionType h)) j in
  let j := set_if (negb (IsZero (Timestamp h))) "timestamp"
                  (JNumber (NanoToMilli (UnixNano (Timestamp h)))) j in
  let j := set_if (0 <? h_Duration h) "duration"
                  (JNumber (NanoToMilli (h_Duration h))) j in
  j.

Definition ConnectionHistory_MarshalJSON (h : ConnectionHistory) : json :=
  JObject (history_map h).

(** Outcome of [json.Unmarshal(data, &j)] for [j] a [map[string]interface{}]:
    an error, or the decoded members. *)
Inductive decoded : Type :=
| DecodeError (e : string)
| Decoded (j : gmap string json).

(** The type assertions [v.(string)] and [v.(float64)]: a value of another
    dynamic type panics. *)
Definition assert_string (v : json) : go_result string :=
  match v with JString s => Returns s | _ => Panics end.

Definition assert_float64 (v : json) : go_result Z :=
  match v with JNumber n => Returns n | _ => Panics end.

(** [if v, found := j[k]; found { h = upd(v.(T)) }]. *)
Definition on_key {T} (j : gmap string json) (k : string)
  (assert : json -> go_result T) (upd : T -> ConnectionHistory -> ConnectionHistory)
  (h : ConnectionHistory) : go_result ConnectionHistory :=
  match j !! k with
  | Some v => go_bind (assert v) (fun x => Returns (upd x h))
  | None => Returns h
  end.

Definition set_Ip (x : string) (h : ConnectionHistory) :=
  mkHistory x (RequestId h) (Activity h) (Timestamp h) (h_ConnectionType h) (h_Duration h).
Definition set_RequestId (x : string) (h : ConnectionHistory) :=
  mkHistory (Ip h) x (Activity h) (Timestamp h) (h_ConnectionType h) (h_Duration h).
Definition set_Activity (x : string) (h : ConnectionHistory) :=
  mkHistory (Ip h) (RequestId h) x (Timestamp h) (h_ConnectionType h) (h_Duration h).
Definition set_ConnectionType (x : string) (h : ConnectionHistory) :=
  mkHistory (Ip h) (RequestId h) (Activity h) (Timestamp h) x (h_Duration h).
Definition set_Timestamp (milli : Z) (h : ConnectionHistory) :=
  mkHistory (Ip h) (RequestId h) (Activity h)
            (Unix (MilliSecToSec milli) (MilliSecToNano milli))
            (h_ConnectionType h) (h_Duration h).
Definition set_Duration (milli : Z) (h : ConnectionHistory) :=
  mkHistory (Ip h) (RequestId h) (Activity h) (Timestamp h) (h_ConnectionType h)
            (wrap64 (milli * Millisecond)).

(** [ConnectionHistory.UnmarshalJSON]: the receiver after the call and the
    returned error, unless a type assertion panics. *)
Definition UnmarshalJSON (d : decoded) (h : ConnectionHistory)
  : go_result (ConnectionHistory * option string) :=
  match d with
  | DecodeError e => Returns (h, Some e)
  | Decoded j =>
      go_bind (on_key j "ip" assert_string set_Ip h) (fun h =>
      go_bind (on_key j "request_id" assert_string set_RequestId h) (fun h =>
      go_bind (on_key j "connection_type" assert_string set_ConnectionType h) (fun h =>
      go_bind (on_key j "activity" assert_string set_Activity h) (fun h =>
      go_bind (on_key j "timestamp" assert_float64 set_Timestamp h) (fun h =>
      go_bind (on_key j "duration" assert_float64 set_Duration h) (fun h =>
      Returns (h, None)))))))
  end.

(** A member whose key [UnmarshalJSON] reads and whose value has not the
    type it asserts. *)
Definition ill_typed (j : gmap string json) (k : string) (want_string : bool) : bool :=
  match j !! k with
  | Some (JString _) => negb want_string
  | Some (JNumber _) => want_string
  | Some _ => true
  | None => false
  end.

Definition has_ill_typed (j : gmap string json) : bool :=
  ill_typed j "ip" true || ill_typed j "request_id" true
  || ill_typed j "connection_type" true || ill_typed j "activity" true
  || ill_typed j "timestamp" false || ill_typed j "duration" false.

(** ** ConnectionStatus *)

Record ConnectionStatus : Type := mkStatus {
  ChannelName : string;
  Status : string;
  ConnectedAt : Time;
  DisconnectedAt : Time;
  ConnectionType : string;
  Duration : Z;
  LastPingedAt : Time;
  Identifier : string;
  Metadata : gmap string string;
  Histories : list ConnectionHistory
}.

(** [for k, v := range h.Metadata { j[k] = v }]: the keys of a map are
    distinct, so the order of the iteration does not show. *)
Definition flatten (meta : gmap string string) (j : gmap string json)
  : gmap string json :=
  (JString <$> meta) ∪ j.

(** [ConnectionStatus.MarshalJSON]: the map handed to [json.Marshal]. *)
Definition status_map (h : ConnectionStatus) : gmap string json :=
  let j := ∅ in
  let j := set_if (nonempty (ChannelName h)) "channel_name" (JString (ChannelName h)) j in
  let j := set_if (nonempty (Status h)) "status" (JString (Status h)) j in
  let j := set_if (negb (IsZero (ConnectedAt h))) "connected_at"
                  (JNumber (NanoToMilli (UnixNano (ConnectedAt h)))) j in
  let j := set_if (negb (IsZero (DisconnectedAt h))) "disconnected_at"
                  (JNumber (NanoToMilli (UnixNano (DisconnectedAt h)))) j in
  let j := set_if (nonempty (ConnectionType h)) "connection_type"
                  (JString (ConnectionType h)) j in
  let j := set_if (0 <? Duration h) "duration" (JNumber (NanoToMilli (Duration h))) j in
  let j := set_if (negb (IsZero (LastPingedAt h))) "last_pinged_at"
                  (JNumber (NanoToMilli (UnixNano (LastPingedAt h)))) j in
  let j := set_if (nonempty (Identifier h)) "device_id" (JString (Identifier h)) j in
  let j := if (0 <? size (Metadata h))%nat then flatten (Metadata h) j else j in
  let j := set_if (0 <? length (Histories h))%nat "connection_history"
                  (JArray (map ConnectionHistory_MarshalJSON (Histories h))) j in
  j.

Definition MarshalJSON (h : ConnectionStatus) : json := JObject (status_map h).

(** The member a scalar field of the struct contributes under key [k]:
    none when the field has its zero value, none for any other key. *)
Definition field_json (h : ConnectionStatus) (k : string) : option json :=
  if decide (k = "channel_name") then
    if nonempty (ChannelName h) then Some (JString (ChannelName h)) else None
  else if decide (k = "status") then
    if nonempty (Status h) then Some (JString (Status h)) else None
  else if decide (k = "connected_at") then
    if negb (IsZero (ConnectedAt h)) then Some (JNumber (NanoToMilli (UnixNano (ConnectedAt h)))) else None
  else if decide (k = "disconnected_at") then
    if negb (IsZero (DisconnectedAt h)) then Some (JNumber (NanoToMilli (UnixNano (DisconnectedAt h)))) else None
  else if decide (k = "connection_type") then
    if nonempty (ConnectionType h) then Some (JString (ConnectionType h)) else None
  else if decide (k = "duration") then
    if 0 <? Duration h then Some (JNumber (NanoToMilli (Duration h))) else None
  else if decide (k = "last_pinged_at") then
    if negb (IsZero (LastPingedAt h)) then Some (JNumber (NanoToMilli (UnixNano (LastPingedAt h)))) else None
  else if decide (k = "device_id") then
    if nonempty (Identifier h) then Some (JString (Identifier h)) else None
  else None.

(** The member the history contributes. *)
Definition history_json (h : ConnectionStatus) (k : string) : option json :=
  if decide (k = "connection_history") then
    if (0 <? length (Histories h))%nat
    then Some (JArray (map ConnectionHistory_MarshalJSON (Histories h)))
    else None
  else None.

(** The keys that belong to fields of the struct. *)
Definition fixed_keys : list string :=
  ["channel_name"; "status"; "connected_at"; "disconnected_at"; "connection_type";
   "duration"; "last_pinged_at"; "device_id"; "connection_history"].

(** The field that belongs to key [k] is non-zero. *)
Definition field_nonzero (h : ConnectionStatus) (k : string) : bool :=
  bool_decide (is_Some (field_json h k)) || bool_decide (is_Some (history_json h k)).

End Models.

(* ===================================================================== *)
(** * Properties                                                         *)
(* ===================================================================== *)

Section EngineInvariants.
Import Connections.

Lemma close_effects_emit evs s :
  close_effects (emit evs s) = close_effects s ++ List.filter is_close_effect evs.
Proof. unfold close_effects. simpl. apply List.filter_app. Qed.

Lemma close_calls_emit evs s :
  close_calls (emit evs s) = (close_calls s + length (List.filter is_close_call evs))%nat.
Proof. unfold close_calls. simpl. rewrite List.filter_app, length_app. done. Qed.

Lemma Close_inv s s' : close_inv s → Close s = Some s' → close_step s s'.
Proof.
  unfold close_step, close_inv, Close, Close_body, chan_send, close_effects, close_calls.
  simpl. intros (H1 & H2 & H3 & H4).
  destruct (closeOnce (conn s)) eqn:E.
  - intros [= <-]. simpl. rewrite E, !List.filter_app, length_app. simpl.
    rewrite app_nil_r. repeat split; try done; [apply H4|lia].
  - destruct H4 as (H4 & H5 & H6). rewrite H6. simpl. intros [= <-]. simpl.
    rewrite !List.filter_app, !length_app, H4. simpl.
    repeat split; try done. lia.
Qed.

Lemma Close_enabled s : close_inv s → is_Some (Close s).
Proof.
  unfold close_inv, Close, Close_body, chan_send. simpl.
  intros (H1 & H2 & H3 & H4). destruct (closeOnce (conn s)); [done|].
  destruct H4 as (_ & _ & ->). done.
Qed.

Lemma close_inv_frame s s' :
  close_inv s → close_view s' = close_view s →
  (closeOnce (conn s) = false → closewch (conn s') = closewch (conn s)) →
  close_step s s'.
Proof.
  unfold close_step, close_inv, close_view.
  intros (H1 & H2 & H3 & H4) [= -> -> -> -> -> ->] Hq.
  repeat split; try done. destruct (closeOnce (conn s)); [done|].
  destruct H4 as (? & ? & ?). rewrite Hq by done. done.
Qed.

Lemma deliver_frame ch r s s' :
  deliver ch r s = Some s' →
  conn s' = conn s ∧ trace s' = trace s ++ [EvDeliver ch r] ∧
  writer s' = writer s ∧ reader s' = reader s ∧ senders s' = senders s.
Proof.
  unfold deliver. destruct (chans s !! ch) as [q|]; [|done].
  destruct (chan_send 1 false q r); [|done..]. intros [= <-]. done.
Qed.

Ltac view :=
  unfold close_view, close_effects, close_calls; simpl;
  rewrite ?List.filter_app; simpl; rewrite ?app_nil_r; try reflexivity.

Ltac frame :=
  match goal with
  | H : close_inv ?s |- _ =>
      apply (close_inv_frame s); [assumption | view | simpl; try reflexivity]
  end.

Lemma step_close_inv a s s' : close_inv s → step a s = Next s' → close_step s s'.
Proof.
  intros Hinv. destruct a; simpl.
  - (* Tick *) destruct (0 <=? d); [|done]. intros [= <-]. frame.
  - (* Send *) destruct (senders s !! tid); [done|].
    unfold sendMessage_begin, enqueue, chan_send. simpl.
    repeat case_match; simpl; try done; intros [= <-]; frame.
  - (* Enq *) destruct (senders s !! tid) as [[]|]; try done.
    unfold enqueue, chan_send. repeat case_match; simpl; try done;
      simplify_eq/=; intros [= <-]; frame.
  - (* Timer *) repeat case_match; try done; intros [= <-]; frame.
  - (* Recv *) repeat case_match; try done; intros [= <-]; frame.
  - (* Defer *) repeat case_match; try done; intros [= <-]. frame.
  - (* WRecv *) repeat case_match; try done; intros [= <-]; frame.
  - (* WWrite *) destruct (writer s); try done. unfold step_writer.
    destruct (sendWsMessage o (req_msg req)) as [e|] eqn:Ew; simpl.
    + destruct (deliver _ _ _) as [s1|] eqn:Ed; [|done]. simpl. intros [= <-].
      apply deliver_frame in Ed as (Ec & Et & _). simpl in *.
      apply (close_inv_frame s); [done| |simpl; by rewrite Ec].
      view. rewrite Ec, Et. view.
    + destruct (_ =? _).
      * intros [= <-]. frame.
      * destruct (deliver _ _ _) as [s1|] eqn:Ed; [|done]. simpl. intros [= <-].
        apply deliver_frame in Ed as (Ec & Et & _). simpl in *.
        apply (close_inv_frame s); [done| |simpl; by rewrite Ec].
        view. rewrite Ec, Et. view.
  - (* WClose *) destruct (writer s); try done.
    destruct (Close s) as [s1|] eqn:Ec; [|done]. simpl. intros [= <-].
    by eapply Close_inv in Ec.
  - (* WFinish *) destruct (writer s); try done.
    destruct (closewch (conn s)) as [|b q] eqn:Eq; [done|]. intros [= <-].
    apply (close_inv_frame s); [done|view|].
    intros Hf. destruct Hinv as (_ & _ & _ & Hinv). rewrite Hf in Hinv.
    destruct Hinv as (_ & _ & Hq). congruence.
  - (* RStep *) unfold step_reader. destruct (reader s); simpl; try done.
    + intros [= <-]. frame.
    + intros [= <-]. frame.
    + destruct (deliver _ _ _) as [s1|] eqn:Ed; [|done]. simpl. intros [= <-].
      apply deliver_frame in Ed as (Ec & Et & _).
      apply (close_inv_frame s); [done| |simpl; by rewrite Ec].
      view. rewrite Ec, Et. view.
    + intros [= <-]. frame.
    + destruct (Close s) as [s1|] eqn:Ec; [|done]. simpl. intros [= <-].
      by eapply Close_inv in Ec.
  - (* RRead *) destruct (reader s); try done. intros [= <-].
    unfold step_reader_read, readWsMessage, touch, find.
    destruct r as [e|e| |[m|e]]; simpl; repeat case_match; frame.
  - (* CallClose *) destruct (Close s) as [s1|] eqn:Ec; [|done]. simpl. intros [= <-].
    by eapply Close_inv in Ec.
Qed.

Lemma init_close_inv cfg t : close_inv (init cfg t).
Proof. by unfold close_inv. Qed.

Lemma run_close_inv sched : ∀ s s', close_inv s → run sched s = Next s' → close_step s s'.
Proof.
  induction sched as [|a sched IH]; intros s s' Hinv; simpl.
  - intros [= <-]. by split.
  - destruct (step a s) as [s1| |] eqn:E; try done.
    intros Hr. destruct (step_close_inv _ _ _ Hinv E) as [Hinv1 Hm].
    destruct (IH _ _ Hinv1 Hr) as [Hinv' Hm']. split; auto.
Qed.

Lemma run_no_crash sched : ∀ s, run sched s ≠ Crash.
Proof.
  induction sched as [|a sched IH]; intros s; simpl; [done|].
  destruct (step a s) as [s1| |] eqn:E; [apply IH|done|].
  exfalso. destruct a; simpl in E; unfold of_option, step_send, sendMessage_begin,
    recover in E; repeat case_match; simplify_eq.
Qed.

Lemma run_app sched1 : ∀ sched2 s,
  run (sched1 ++ sched2) s =
    match run sched1 s with Next s' => run sched2 s' | o => o end.
Proof.
  induction sched1 as [|a sched1 IH]; intros sched2 s; simpl; [done|].
  destruct (step a s); [apply IH|done..].
Qed.

Lemma run_CallClose k : ∀ s,
  close_inv s → ∃ s', run (repeat CallClose k) s = Next s' ∧
                      close_calls s' = (close_calls s + k)%nat.
Proof.
  induction k as [|k IH]; intros s Hinv; simpl.
  - exists s. split; [done|lia].
  - destruct (Close_enabled s Hinv) as [s1 Hc]. rewrite Hc. simpl.
    pose proof (Close_inv _ _ Hinv Hc) as [Hinv1 _].
    destruct (IH s1 Hinv1) as (s' & Hr & Hn). exists s'. split; [done|].
    rewrite Hn. unfold Close in Hc. simpl in Hc.
    assert (close_calls s1 = S (close_calls s)) as ->; [|lia].
    unfold Close_body, chan_send in Hc. repeat case_match; simplify_eq;
      unfold close_calls; simpl; rewrite ?List.filter_app, ?length_app; simpl; lia.
Qed.

(** C3.  [Close] is idempotent.  In every state the connection can reach,
    under any interleaving of its goroutines: if [Close] has not been
    called, none of the effects of its body has happened; once it has been
    called, each of them (the closed flag, closing the inbox, closing the
    reader's stop channel, the close signal, unregistering) has happened
    exactly once.  Calling [Close] [k] more times, and whatever runs after,
    leaves it at that. *)
Theorem Close_is_idempotent (cfg : Config) (t : Z) (sched : list action)
  (s : state) (k : nat) :
  run sched (init cfg t) = Next s → (1 <= k)%nat →
  (close_calls s = 0%nat → close_effects s = []) ∧
  ((1 <= close_calls s)%nat → close_effects s = body_effects) ∧
  ∃ s', run (repeat CallClose k) s = Next s' ∧
        close_calls s' = (close_calls s + k)%nat ∧
        close_effects s' = body_effects ∧
        closeOnce (conn s') = true ∧ closed (conn s') = true ∧
        wch_closed (conn s') = true ∧ rch_closed (conn s') = true ∧
        ∀ sched' s'', run sched' s' = Next s'' → close_effects s'' = body_effects.
Proof.
  intros Hrun Hk.
  pose proof (run_close_inv _ _ _ (init_close_inv cfg t) Hrun) as [Hinv _].
  assert (Hcases : ∀ s0, close_inv s0 →
            (close_calls s0 = 0%nat → close_effects s0 = []) ∧
            ((1 <= close_calls s0)%nat →
               close_effects s0 = body_effects ∧ closeOnce (conn s0) = true ∧
               closed (conn s0) = true ∧ wch_closed (conn s0) = true ∧
               rch_closed (conn s0) = true)).
  { intros s0 (H1 & H2 & H3 & H4). destruct (closeOnce (conn s0)).
    - destruct H4. split; [lia|]. done.
    - destruct H4 as (? & ? & ?). split; [done|lia]. }
  split; [apply Hcases, Hinv|]. split; [intros; by apply Hcases|].
  destruct (run_CallClose k s Hinv) as (s' & Hr & Hn). exists s'.
  pose proof (run_close_inv _ _ _ Hinv Hr) as [Hinv' _].
  destruct (Hcases s' Hinv') as [_ Hs']. destruct Hs' as (? & ? & ? & ? & ?); [lia|].
  repeat split; try done.
  intros sched' s'' Hr'.
  pose proof (run_close_inv _ _ _ Hinv' Hr') as [(_ & _ & _ & H4) Hm].
  rewrite Hm in H4 by done. apply H4.
Qed.

(** C4.  On a connection that has been closed, in any state it can reach:
    a new [sendMessage] (whatever the message type: asynchronous request,
    response or synchronous request) returns "connection is closed"; a
    caller parked on the inbox when the connection closes has its send
    panic, cannot take the timeout branch, and returns the same error; and
    no schedule makes a panic leave its goroutine. *)
Theorem send_on_closed_connection (cfg : Config) (t : Z) (sched : list action)
  (s : state) (tid : nat) (messageType : Z) (payload : string) :
  run sched (init cfg t) = Next s → closed (conn s) = true →
  (senders s !! tid = None →
     ∃ s', step (Send tid messageType payload) s = Next s' ∧
           returned tid s' = Some (EmptyString, Some ErrConnectionClosed)) ∧
  (∀ req, senders s !! tid = Some (SEnqueue req) →
     enqueue req s = Panics ∧ step (Timer tid) s = Stuck ∧
     ∃ s', step (Enq tid) s = Next s' ∧
           returned tid s' = Some (EmptyString, Some ErrConnectionClosed)) ∧
  (∀ sched', run sched' s ≠ Crash).
Proof.
  intros Hrun Hc.
  pose proof (run_close_inv _ _ _ (init_close_inv cfg t) Hrun) as [(H1 & H2 & _) _]. rewrite <- H1, Hc in H2.
  split; [|split].
  - intros Hfresh. simpl. rewrite Hfresh.
    unfold sendMessage_begin, enqueue, chan_send. simpl. rewrite H2. simpl.
    eexists. split; [reflexivity|]. unfold returned. simpl. by rewrite lookup_insert_eq.
  - intros req Hp.
    assert (He : enqueue req s = Panics) by (unfold enqueue, chan_send; by rewrite H2).
    split; [done|]. simpl. rewrite Hp, He. split; [done|]. simpl.
    eexists. split; [reflexivity|]. unfold returned. simpl. by rewrite lookup_insert_eq.
  - intros sched'. apply run_no_crash.
Qed.
End EngineInvariants.

Section FormatIntProperties.
Import Connections.

Lemma hex_value_digit u : 0 <= u < 16 → hex_value (hex_digit u) = u.
Proof.
  intros H.
  assert (u = 0 ∨ u = 1 ∨ u = 2 ∨ u = 3 ∨ u = 4 ∨ u = 5 ∨ u = 6 ∨ u = 7 ∨
          u = 8 ∨ u = 9 ∨ u = 10 ∨ u = 11 ∨ u = 12 ∨ u = 13 ∨ u = 14 ∨ u = 15)
    as Hu by lia.
  repeat (destruct Hu as [->|Hu]; [reflexivity|]). subst; reflexivity.
Qed.

Lemma hex_digit_not_minus u : 0 <= u < 16 → hex_digit u ≠ "-"%char.
Proof.
  intros H.
  assert (u = 0 ∨ u = 1 ∨ u = 2 ∨ u = 3 ∨ u = 4 ∨ u = 5 ∨ u = 6 ∨ u = 7 ∨
          u = 8 ∨ u = 9 ∨ u = 10 ∨ u = 11 ∨ u = 12 ∨ u = 13 ∨ u = 14 ∨ u = 15)
    as Hu by lia.
  repeat (destruct Hu as [->|Hu]; [discriminate|]). subst; discriminate.
Qed.

Lemma formatBits_append fuel : ∀ u a b,
  formatBits fuel u (a ++ b) = (formatBits fuel u a ++ b)%string.
Proof.
  induction fuel as [|fuel IH]; intros u a b; simpl; [reflexivity|].
  destruct (u <? 16); [reflexivity|].
  apply (IH _ (String _ a)).
Qed.

Lemma formatBits_app fuel u a :
  formatBits fuel u a = (formatBits fuel u EmptyString ++ a)%string.
Proof. apply (formatBits_append fuel u EmptyString a). Qed.

Lemma parse_hex_app x : ∀ acc y,
  parse_hex acc (x ++ y) = parse_hex (parse_hex acc x) y.
Proof. induction x as [|c x IH]; intros acc y; simpl; [reflexivity|apply IH]. Qed.

Lemma land_15 u : 0 <= u → Z.land u 15 = u mod 16.
Proof. intros _. change 15 with (Z.ones 4). rewrite Z.land_ones by lia. reflexivity. Qed.

Lemma parse_formatBits fuel : ∀ u,
  0 <= u < 16 ^ Z.of_nat fuel → (0 < fuel)%nat →
  parse_hex 0 (formatBits fuel u EmptyString) = u.
Proof.
  induction fuel as [|fuel IH]; intros u Hu Hf; [lia|].
  simpl formatBits. destruct (u <? 16) eqn:E.
  - apply Z.ltb_lt in E. simpl. rewrite hex_value_digit; lia.
  - apply Z.ltb_ge in E.
    rewrite formatBits_app, parse_hex_app.
    rewrite Nat2Z.inj_succ, Z.pow_succ_r in Hu by lia.
    rewrite Z.shiftr_div_pow2 by lia. change (2 ^ 4) with 16.
    assert (0 < fuel)%nat.
    { destruct fuel; [simpl in Hu; lia|lia]. }
    rewrite IH; [|split; [apply Z.div_pos; lia|apply Z.div_lt_upper_bound; lia]|done].
    simpl. rewrite land_15 by lia. rewrite hex_value_digit by (apply Z.mod_pos_bound; lia).
    pose proof (Z.div_mod u 16). lia.
Qed.

Lemma formatBits_head fuel u a :
  0 <= u → ∃ d rest, 0 <= d < 16 ∧ formatBits (S fuel) u a = String (hex_digit d) rest.
Proof.
  revert u a. induction fuel as [|fuel IH]; intros u a Hu.
  - simpl. destruct (u <? 16) eqn:E.
    + apply Z.ltb_lt in E. eauto.
    + exists (Z.land u 15), a. split; [|reflexivity].
      rewrite land_15 by lia. apply Z.mod_pos_bound; lia.
  - change (formatBits (S (S fuel)) u a) with
      (if u <? 16 then String (hex_digit u) a
       else formatBits (S fuel) (Z.shiftr u 4) (String (hex_digit (Z.land u 15)) a)).
    destruct (u <? 16) eqn:E.
    + apply Z.ltb_lt in E. eauto.
    + apply IH. apply Z.shiftr_nonneg. lia.
Qed.

Lemma String_inj c c' (x x' : string) : String c x = String c' x' → c = c' ∧ x = x'.
Proof. intros H. split; congruence. Qed.

Lemma parse_FormatInt16_nonneg u :
  0 <= u <= 2 ^ 63 → parse_hex 0 (formatBits 16 u EmptyString) = u.
Proof.
  intros Hu. apply parse_formatBits; [|lia].
  change (16 ^ Z.of_nat 16) with (2 ^ 64). lia.
Qed.

Lemma FormatInt16_inj i j :
  int64 i → int64 j → FormatInt16 i = FormatInt16 j → i = j.
Proof.
  unfold int64, FormatInt16. intros Hi Hj.
  destruct (Z.ltb_spec i 0) as [Ei|Ei], (Z.ltb_spec j 0) as [Ej|Ej]; intros H.
  - apply String_inj in H as [_ H]. apply (f_equal (parse_hex 0)) in H.
    rewrite !parse_FormatInt16_nonneg in H by lia. lia.
  - destruct (formatBits_head 15 j EmptyString) as (d & rest & Hd & Hr); [lia|].
    rewrite Hr in H. apply String_inj in H as [H _]. symmetry in H.
    by apply hex_digit_not_minus in H.
  - destruct (formatBits_head 15 i EmptyString) as (d & rest & Hd & Hr); [lia|].
    rewrite Hr in H. apply String_inj in H as [H _].
    by apply hex_digit_not_minus in H.
  - apply (f_equal (parse_hex 0)) in H.
    rewrite !parse_FormatInt16_nonneg in H by lia. lia.
Qed.
End FormatIntProperties.

Section EngineProperties.
Import Connections.

Lemma deliver_empty ch r s :
  chans s !! ch = Some [] →
  deliver ch r s = Some (emit [EvDeliver ch r] (with_chans (<[ch := [r]]>) s)).
Proof. unfold deliver. intros ->. reflexivity. Qed.

(** C5.  The writer on a request whose slot is free.  When the frame was
    transmitted: a synchronous request puts (id, slot) into [msgChans] and
    leaves the slot untouched, any other message completes the slot with
    the empty response.  When the transmission failed: the error goes into
    the slot, [msgChans] is untouched, and the writer goes on to call
    [Close] iff the error is a [WebsocketError]. *)
Theorem wListen_completes_the_slot (s : state) (o : ws_write) (req : MessageReq) :
  writer s = WWriting req → chans s !! req_respCh req = Some [] →
  ∃ s', step (WWrite o) s = Next s' ∧
    closeOnce (conn s') = closeOnce (conn s) ∧
    close_calls s' = close_calls s ∧
    match sendWsMessage o (req_msg req) with
    | None =>
        writer s' = WIdle ∧
        if MessageType (req_msg req) =? SyncRequestMessage
        then msgChans (conn s') =
               <[MessageId (req_msg req) := req_respCh req]> (msgChans (conn s)) ∧
             chans s' = chans s
        else msgChans (conn s') = msgChans (conn s) ∧
             chans s' = <[req_respCh req := [mkResp None None]]> (chans s)
    | Some e =>
        msgChans (conn s') = msgChans (conn s) ∧
        chans s' = <[req_respCh req := [mkResp None (Some e)]]> (chans s) ∧
        (writer s' = WCallClose ↔ isWebsocketError e = true) ∧
        (writer s' = WIdle ↔ isWebsocketError e = false) ∧
        ∀ s1, writer s1 = WCallClose →
              step WClose s1 = of_option (s2 ← Close s1; Some (with_writer WIdle s2))
    end.
Proof.
  intros Hw Hch. simpl. rewrite Hw. unfold step_writer.
  destruct (sendWsMessage o (req_msg req)) as [e|] eqn:Ew.
  - rewrite deliver_empty by done. simpl. eexists. split; [reflexivity|]. simpl.
    split; [done|]. split.
    { unfold close_calls. simpl. rewrite !List.filter_app. simpl. by rewrite !app_nil_r. }
    split; [done|]. split; [done|].
    destruct (isWebsocketError e); repeat split; try done.
    all: intros s1 H1; simpl; by rewrite H1.
  - destruct (MessageType (req_msg req) =? SyncRequestMessage) eqn:Es.
    + eexists. split; [reflexivity|]. simpl. split; [done|]. split; [|done].
      unfold close_calls. simpl. rewrite !List.filter_app. simpl. by rewrite !app_nil_r.
    + rewrite deliver_empty by done. simpl. eexists. split; [reflexivity|]. simpl.
      split; [done|]. split; [|done].
      unfold close_calls. simpl. rewrite !List.filter_app. simpl. by rewrite !app_nil_r.
Qed.

(** C2.  The reader on a Response frame.  With an entry for the id of the
    frame (and its slot free): the entry is removed first, with nothing
    delivered yet, then the message is delivered to that slot and to no
    other, then the handler is called with the frame and no error; the
    entry is gone afterwards.  Without an entry: the handler is called with
    the frame and the unexpected-response error, nothing is delivered and
    the connection is not closed. *)
Theorem rListen_resolves_the_response (s : state) (m : Message) :
  reader s = RReading → MessageType m = ResponseMessage →
  (∀ ch, find (MessageId m) s = Some ch → chans s !! ch = Some []) →
  match find (MessageId m) s with
  | Some ch =>
      ∃ s1 s2 s3 s4,
        step (RRead (ReadsBody (inl m))) s = Next s1 ∧ step RStep s1 = Next s2 ∧
        step RStep s2 = Next s3 ∧ step RStep s3 = Next s4 ∧
        (msgChans (conn s1) = msgChans (conn s) ∧ chans s1 = chans s) ∧
        (msgChans (conn s2) = base.delete (MessageId m) (msgChans (conn s)) ∧
         chans s2 = chans s) ∧
        (msgChans (conn s3) = msgChans (conn s2) ∧
         chans s3 = <[ch := [mkResp (Some m) None]]> (chans s)) ∧
        trace s4 = trace s ++ [EvUpdateRegistry; EvDelete (MessageId m);
                               EvDeliver ch (mkResp (Some m) None);
                               EvHandler (Some m) None] ∧
        chans s4 = chans s3 ∧ find (MessageId m) s4 = None ∧
        reader s4 = RLoop ∧ closeOnce (conn s4) = closeOnce (conn s) ∧
        closed (conn s4) = closed (conn s)
  | None =>
      ∃ s1,
        step (RRead (ReadsBody (inl m))) s = Next s1 ∧
        trace s1 = trace s ++ [EvUpdateRegistry;
                               EvHandler (Some m) (Some ErrUnexpectedResponse)] ∧
        msgChans (conn s1) = msgChans (conn s) ∧ chans s1 = chans s ∧
        reader s1 = RLoop ∧ closeOnce (conn s1) = closeOnce (conn s) ∧
        closed (conn s1) = closed (conn s)
  end.
Proof.
  intros Hr Hm Hslot.
  assert (Hread : step (RRead (ReadsBody (inl m))) s =
    Next (match find (MessageId m) s with
          | Some ch => with_reader (RFound ch m) (touch s)
          | None => with_reader RLoop
                      (emit [EvHandler (Some m) (Some ErrUnexpectedResponse)] (touch s))
          end)).
  { simpl. rewrite Hr. unfold step_reader_read. simpl. rewrite Hm. simpl.
    unfold find, touch. simpl. by destruct (msgChans (conn s) !! MessageId m). }
  destruct (find (MessageId m) s) as [ch|] eqn:Ef.
  - specialize (Hslot ch eq_refl).
    eexists _, _, _, _. split; [exact Hread|].
    split; [reflexivity|]. split.
    { simpl. unfold step_reader. simpl. rewrite deliver_empty by done. reflexivity. }
    split; [reflexivity|]. simpl.
    repeat split; try done.
    + by rewrite <- !app_assoc.
    + unfold find. simpl. apply lookup_delete_eq.
  - eexists. split; [exact Hread|]. simpl. repeat split; try done.
    by rewrite <- !app_assoc.
Qed.
(** C1 (the code departs from the claim).  A synchronous request whose
    response timer fires while the writer is still transmitting returns the
    response timeout, its deferred delete finds nothing to remove, and the
    writer then stores the entry: the pending table, empty before the call,
    holds one entry after it. *)
Theorem send_sync_timeout_leaks_pending_entry :
  len (init cfg0 1000) = 0%nat ∧
  completes late_write = true ∧
  returned 0 (state_after late_write)
    = Some (EmptyString, Some (ErrResponseTimedOut 100000000)) ∧
  find (FormatInt16 1000) (state_after late_write) = Some 0%nat ∧
  len (state_after late_write) = 1%nat.
Proof. repeat split; vm_compute; reflexivity. Qed.

(** C7 (counterexample).  After the enqueue, and after the writer has taken
    the frame, the call has not returned; what it returns in the end is the
    outcome of the transport write. *)
Lemma send_async_returns_the_write_error :
  completes async_ok = true ∧ completes async_bad = true ∧
  returned 0 (state_after [SendAsyncRequest 0 "x"]) = None ∧
  returned 0 (state_after [SendAsyncRequest 0 "x"; WRecv]) = None ∧
  returned 0 (state_after async_ok) = Some (EmptyString, None) ∧
  returned 0 (state_after async_bad)
    = Some (EmptyString, Some (WebsocketError "broken pipe")).
Proof. repeat split; vm_compute; reflexivity. Qed.

(** C7 (amended).  An asynchronous send on an open connection with room
    in the inbox does not return on the enqueue: the caller waits on its
    result slot.  It returns the request timeout when the timer fires
    first, and otherwise, once the writer has transmitted the frame, the
    outcome of that transmission (no error when it succeeded). *)
Theorem send_async_waits_for_the_write (s : state) (tid : nat) (payload : string) :
  senders s !! tid = None → wch_closed (conn s) = false →
  (length (wch (conn s)) < RequestQueueSize (config s))%nat →
  let msgId := FormatInt16 (now s) in
  let msg := mkMessage AsyncRequestMessage msgId payload in
  let ch := next_chan s in
  ∃ s1,
    step (SendAsyncRequest tid payload) s = Next s1 ∧
    senders s1 !! tid = Some (SWait AsyncRequestMessage msgId ch) ∧
    returned tid s1 = None ∧
    wch (conn s1) = wch (conn s) ++ [mkReq msg ch] ∧
    chans s1 !! ch = Some [] ∧
    step (Recv tid) s1 = Stuck ∧
    (∃ s2, step (Timer tid) s1 = Next s2 ∧
           returned tid s2 =
             Some (EmptyString,
                   Some (ErrResponseTimedOut (Request (timeouts (config s)))))) ∧
    (∀ s2 o, senders s2 !! tid = Some (SWait AsyncRequestMessage msgId ch) →
             writer s2 = WWriting (mkReq msg ch) → chans s2 !! ch = Some [] →
             ∃ s3 s4, step (WWrite o) s2 = Next s3 ∧ step (Recv tid) s3 = Next s4 ∧
                      returned tid s4 = Some (EmptyString, sendWsMessage o msg)).
Proof.
  intros Hfresh Hopen Hroom msgId msg ch.
  assert (Hsend : step (SendAsyncRequest tid payload) s =
    Next (with_sender tid (SWait AsyncRequestMessage msgId ch)
            (with_conn (set_wch (wch (conn s) ++ [mkReq msg ch]))
               (with_next_chan (S ch) (with_chans (<[ch := []]>) s))))).
  { simpl. rewrite Hfresh. unfold sendMessage_begin, enqueue, chan_send. simpl.
    rewrite Hopen. apply Nat.ltb_lt in Hroom. rewrite Hroom. reflexivity. }
  eexists. split; [exact Hsend|]. simpl.
  split; [apply lookup_insert_eq|]. split; [unfold returned; simpl; by rewrite lookup_insert_eq|].
  split; [done|]. split; [apply lookup_insert_eq|].
  rewrite !lookup_insert_eq. split; [done|]. split.
  { eexists. split; [reflexivity|]. unfold returned. simpl. by rewrite lookup_insert_eq. }
  intros s2 o Hs2 Hw2 Hc2. simpl. rewrite Hw2. unfold step_writer. simpl.
  destruct (sendWsMessage o msg) as [e|] eqn:Ew; rewrite deliver_empty by done; simpl;
    (eexists _, _; split; [reflexivity|]; simpl; rewrite Hs2; simpl;
     rewrite lookup_insert_eq; split; [reflexivity|];
     unfold returned; simpl; by rewrite lookup_insert_eq).
Qed.

(** C8 (counterexample).  Two synchronous requests sent within the same
    nanosecond are both waiting for their response, under the same id. *)
Lemma concurrent_sync_requests_share_an_id :
  completes same_tick = true ∧
  senders (state_after same_tick) !! 0%nat = Some (SWait SyncRequestMessage "3e8" 0) ∧
  senders (state_after same_tick) !! 1%nat = Some (SWait SyncRequestMessage "3e8" 1).
Proof. repeat split; vm_compute; reflexivity. Qed.

(** C8 (amended).  The id a send allocates is the clock reading in base
    16: two sends get the same id iff they read the same clock value (an
    int64 number of nanoseconds). *)
Theorem message_id_is_the_clock (s1 s2 : state) (mt1 mt2 : Z) (p1 p2 : string) :
  int64 (now s1) → int64 (now s2) →
  wch_closed (conn s1) = false → wch_closed (conn s2) = false →
  ∃ q1 q2 st1 st2,
    sendMessage_begin mt1 p1 s1 = Returns (q1, st1) ∧
    sendMessage_begin mt2 p2 s2 = Returns (q2, st2) ∧
    allocated_id q1 = Some (FormatInt16 (now s1)) ∧
    allocated_id q2 = Some (FormatInt16 (now s2)) ∧
    (allocated_id q1 = allocated_id q2 ↔ now s1 = now s2).
Proof.
  intros H1 H2 Ho1 Ho2.
  assert (Hb : ∀ mt p s, wch_closed (conn s) = false →
    ∃ q st, sendMessage_begin mt p s = Returns (q, st) ∧
            allocated_id q = Some (FormatInt16 (now s))).
  { intros mt p s Ho. unfold sendMessage_begin, enqueue, chan_send. simpl. rewrite Ho.
    destruct (_ <? _)%nat; eexists _, _; (split; [reflexivity|done]). }
  destruct (Hb mt1 p1 s1 Ho1) as (q1 & st1 & E1 & A1).
  destruct (Hb mt2 p2 s2 Ho2) as (q2 & st2 & E2 & A2).
  exists q1, q2, st1, st2. repeat split; try done.
  - rewrite A1, A2. intros [= H]. by apply FormatInt16_inj.
  - rewrite A1, A2. by intros ->.
Qed.
End EngineProperties.

Section ManagerProperties.
Import Manager.

Lemma wrap32_range x : 0 <= wrap32 x < 2 ^ 32.
Proof. unfold wrap32. apply Z.mod_pos_bound. lia. Qed.

Lemma lxor_range a b : 0 <= a < 2 ^ 32 → 0 <= b < 2 ^ 32 → 0 <= Z.lxor a b < 2 ^ 32.
Proof.
  intros Ha Hb. split; [apply Z.lxor_nonneg; lia|].
  destruct (Z.eq_dec (Z.lxor a b) 0) as [->|Hne]; [lia|].
  assert (0 < Z.lxor a b) by (pose proof (proj2 (Z.lxor_nonneg a b)); lia).
  apply Z.log2_lt_pow2; [lia|].
  pose proof (Z.log2_lxor a b ltac:(lia) ltac:(lia)) as Hl.
  assert (Z.log2 a < 32).
  { destruct (Z.eq_dec a 0) as [->|]; [simpl; lia|apply Z.log2_lt_pow2; lia]. }
  assert (Z.log2 b < 32).
  { destruct (Z.eq_dec b 0) as [->|]; [simpl; lia|apply Z.log2_lt_pow2; lia]. }
  lia.
Qed.

Lemma shiftr_range a n : 0 <= a < 2 ^ 32 → 0 <= n → 0 <= Z.shiftr a n < 2 ^ 32.
Proof.
  intros Ha Hn. rewrite Z.shiftr_div_pow2 by lia. split.
  - apply Z.div_pos; lia.
  - apply Z.div_lt_upper_bound; [lia|]. assert (1 <= 2 ^ n) by lia. nia.
Qed.

Lemma Sum32_range data : 0 <= Sum32 data < 2 ^ 32.
Proof.
  unfold Sum32. destruct (bmix 0 data) as [h1 tail]. unfold fmix32.
  apply lxor_range; [apply wrap32_range|apply shiftr_range; [apply wrap32_range|lia]].
Qed.

Lemma shard_index_spec id m i :
  shard_index id m = Returns i →
  (i < length (shards m))%nat ∧
  Z.of_nat i = Sum32 (bytes id) mod wrap32 (Z.of_nat (length (shards m))).
Proof.
  unfold shard_index. pose proof (wrap32_range (Z.of_nat (length (shards m)))) as Hw.
  destruct (_ =? 0) eqn:E; [discriminate|]. apply Z.eqb_neq in E.
  intros [= <-].
  pose proof (Sum32_range (bytes id)).
  pose proof (Z.mod_pos_bound (Sum32 (bytes id)) (wrap32 (Z.of_nat (length (shards m)))) ltac:(lia)).
  assert (wrap32 (Z.of_nat (length (shards m))) <= Z.of_nat (length (shards m))).
  { unfold wrap32. apply Z.mod_le; lia. }
  split; lia.
Qed.

(** The index depends on the manager through its number of shards only. *)
Lemma shard_index_length id m m' :
  length (shards m') = length (shards m) → shard_index id m' = shard_index id m.
Proof. unfold shard_index. intros ->. reflexivity. Qed.

Lemma shard_index_total id m :
  wrap32 (Z.of_nat (length (shards m))) ≠ 0 →
  ∃ i sh, shard_index id m = Returns i ∧ shards m !! i = Some sh.
Proof.
  intros Hn. unfold shard_index. destruct (_ =? 0) eqn:E; [apply Z.eqb_eq in E; done|].
  eexists. 
  destruct (shards m !! Z.to_nat (Sum32 (bytes id) mod wrap32 (Z.of_nat (length (shards m))))) as [sh|] eqn:L.
  - exists sh. split; [reflexivity|done].
  - apply lookup_ge_None in L.
    assert (H : shard_index id m = Returns (Z.to_nat (Sum32 (bytes id) mod wrap32 (Z.of_nat (length (shards m)))))).
    { unfold shard_index. by rewrite E. }
    apply shard_index_spec in H. lia.
Qed.

Lemma register_lookup id c ok sh id' :
  wsconns sh !! id ≠ Some c →
  wsconns (register id c ok sh).1.1 !! id' =
    if decide (id' = id) then Some c else wsconns sh !! id'.
Proof.
  intros Hc. unfold register. simpl.
  destruct (wsconns sh !! id) as [old|] eqn:E; simpl.
  - unfold unregister. simpl. rewrite lookup_insert_eq.
    destruct (decide (c = old)) as [->|Hne]; [done|].
    simpl. case_decide; subst; by simplify_map_eq.
  - case_decide; subst; by simplify_map_eq.
Qed.

Lemma unregister_lookup id c sh id' c' :
  wsconns (unregister id c sh) !! id' = Some c' → wsconns sh !! id' = Some c'.
Proof.
  unfold unregister. destruct (wsconns sh !! id) as [old|] eqn:E; [|done].
  case_decide; [|done]. simpl. intros Hl.
  destruct (decide (id' = id)) as [->|]; by simplify_map_eq.
Qed.

Lemma unregister_gone id c sh :
  wsconns (unregister id c sh) !! id ≠ Some c.
Proof.
  unfold unregister. destruct (wsconns sh !! id) as [old|] eqn:E.
  - case_decide; simpl; [by rewrite lookup_delete_eq|congruence].
  - congruence.
Qed.

Lemma newConnection_spec id c ok m :
  live m → closed m = false → allocated c m →
  ∃ i sh,
    shard_index id m = Returns i ∧ shards m !! i = Some sh ∧
    newConnection id c ok m =
      Returns (mkWscm (closed m)
                 (<[i := if ok then (register id c ok sh).1.1
                         else unregister id c (register id c ok sh).1.1]> (shards m)),
               if ok then inl c else inr RegistryFailure).
Proof.
  intros Hl Hc Ha. destruct (shard_index_total id m Hl) as (i & sh & Hi & Hs).
  exists i, sh. split; [done|]. split; [done|].
  unfold newConnection, shard_at. rewrite Hi. simpl. rewrite Hs, Hc. simpl.
  destruct ok; reflexivity.
Qed.

Lemma routed_insert m i sh sh' id0 :
  routed m → shards m !! i = Some sh → shard_index id0 m = Returns i →
  (∀ id c, wsconns sh' !! id = Some c → id = id0 ∨ wsconns sh !! id = Some c) →
  routed (mkWscm (closed m) (<[i := sh']> (shards m))).
Proof.
  intros Hr Hs Hi Hsub j shj id c Hj Hl. simpl in Hj.
  rewrite (shard_index_length id m) by (simpl; apply length_insert).
  destruct (decide (j = i)) as [->|Hne].
  - rewrite list_lookup_insert_eq in Hj by (eapply lookup_lt_Some; eauto).
    injection Hj as <-. destruct (Hsub _ _ Hl) as [->|Hl']; [done|]. eapply Hr; eauto.
  - rewrite list_lookup_insert_ne in Hj by done. eapply Hr; eauto.
Qed.

Lemma allocated_insert m i sh sh' next next' :
  allocated next m → shards m !! i = Some sh → (next <= next')%nat →
  (∀ id c, wsconns sh' !! id = Some c → (c < next')%nat ∨ wsconns sh !! id = Some c) →
  allocated next' (mkWscm (closed m) (<[i := sh']> (shards m))).
Proof.
  intros Ha Hs Hle Hsub j shj id c Hj Hl. simpl in Hj.
  destruct (decide (j = i)) as [->|Hne].
  - rewrite list_lookup_insert_eq in Hj by (eapply lookup_lt_Some; eauto).
    injection Hj as <-. destruct (Hsub _ _ Hl) as [?|Hl']; [done|].
    specialize (Ha _ _ _ _ Hs Hl'). lia.
  - rewrite list_lookup_insert_ne in Hj by done.
    specialize (Ha _ _ _ _ Hj Hl). lia.
Qed.

Lemma allocated_fresh next m i sh id :
  allocated next m → shards m !! i = Some sh → wsconns sh !! id ≠ Some next.
Proof. intros Ha Hs Hl. specialize (Ha _ _ _ _ Hs Hl). lia. Qed.

Lemma newConnection_wf id ok m next :
  wf next m →
  ∃ m' r, newConnection id next ok m = Returns (m', r) ∧ wf (S next) m' ∧
          length (shards m') = length (shards m).
Proof.
  intros (Hl & Hr & Ha). destruct (decide (closed m = true)) as [Hc|Hc].
  { exists m, (inr closedWscmErr). unfold newConnection. rewrite Hc.
    repeat split; try done. intros i sh id' c Hs Hw. specialize (Ha _ _ _ _ Hs Hw). lia. }
  apply not_true_is_false in Hc.
  destruct (newConnection_spec id next ok m Hl Hc Ha) as (i & sh & Hi & Hs & Hn).
  rewrite Hn. eexists _, _. split; [reflexivity|].
  pose proof (allocated_fresh _ _ _ _ id Ha Hs) as Hfresh.
  assert (Hsub : ∀ id' c,
    wsconns (if ok then (register id next ok sh).1.1
             else unregister id next (register id next ok sh).1.1) !! id' = Some c →
    (id' = id ∧ c = next) ∨ wsconns sh !! id' = Some c).
  { intros id' c Hl'. destruct ok.
    - rewrite register_lookup in Hl' by done. case_decide; [left|right]; [|done].
      split; congruence.
    - apply unregister_lookup in Hl'. rewrite register_lookup in Hl' by done.
      case_decide; [left|right]; [|done]. split; congruence. }
  split; [|simpl; apply length_insert]. repeat split.
  - unfold live. simpl. rewrite length_insert. done.
  - eapply routed_insert; eauto. intros id' c Hl'. destruct (Hsub _ _ Hl') as [[-> _]|?]; auto.
  - eapply allocated_insert; eauto. intros id' c Hl'.
    destruct (Hsub _ _ Hl') as [[_ ->]|?]; auto.
Qed.

Lemma closeConnection_wf id c m next :
  wf next m → ∃ m', closeConnection id c m = Returns m' ∧ wf next m' ∧
                    length (shards m') = length (shards m).
Proof.
  intros (Hl & Hr & Ha). destruct (shard_index_total id m Hl) as (i & sh & Hi & Hs).
  unfold closeConnection, shard_at. rewrite Hi. simpl. rewrite Hs. simpl.
  eexists. split; [reflexivity|]. split; [|simpl; apply length_insert]. repeat split.
  - unfold live. simpl. rewrite length_insert. done.
  - eapply routed_insert; eauto. intros id' c' Hl'. right. by eapply unregister_lookup.
  - eapply allocated_insert; eauto. intros id' c' Hl'. right. by eapply unregister_lookup.
Qed.

Lemma close_wf m next : wf next m → wf next (close m).
Proof.
  intros (Hl & Hr & Ha). repeat split.
  - unfold live, close. simpl. rewrite length_map. done.
  - intros i sh id c Hs Hw. simpl in Hs. rewrite list_lookup_fmap in Hs.
    destruct (shards m !! i); by simplify_eq/=.
  - intros i sh id c Hs Hw. simpl in Hs. rewrite list_lookup_fmap in Hs.
    destruct (shards m !! i); by simplify_eq/=.
Qed.

Lemma new_manager_wf N :
  0 < Z.of_nat N < 2 ^ 32 → wf 0 (newWebSocketConnectionManager N).
Proof.
  intros HN. repeat split.
  - unfold live. simpl. rewrite length_replicate. unfold wrap32.
    rewrite Z.mod_small by lia. lia.
  - intros i sh id c Hs Hw. simpl in Hs. apply lookup_replicate in Hs as [-> _].
    simpl in Hw. by rewrite lookup_empty in Hw.
  - intros i sh id c Hs Hw. simpl in Hs. apply lookup_replicate in Hs as [-> _].
    simpl in Hw. by rewrite lookup_empty in Hw.
Qed.

Lemma apply_ops_wf ops : ∀ m next,
  wf next m → ∃ m' next', apply_ops ops (m, next) = Returns (m', next') ∧ wf next' m'
    ∧ length (shards m') = length (shards m).
Proof.
  induction ops as [|o ops IH]; intros m next Hwf; [by eexists _, _|].
  simpl. destruct o as [id ok|id c|].
  - destruct (newConnection_wf id ok m next Hwf) as (m' & r & Hn & Hwf' & Hlen').
    rewrite Hn. simpl. destruct (IH _ _ Hwf') as (m'' & n'' & ? & ? & Hlen).
    eexists _, _. split; [done|]. split; [done|]. congruence.
  - destruct (closeConnection_wf id c m next Hwf) as (m' & Hn & Hwf' & Hlen').
    rewrite Hn. simpl. destruct (IH _ _ Hwf') as (m'' & n'' & ? & ? & Hlen).
    eexists _, _. split; [done|]. split; [done|]. congruence.
  - destruct (IH _ _ (close_wf _ _ Hwf)) as (m'' & n'' & ? & ? & Hlen).
    eexists _, _. split; [done|]. split; [done|]. rewrite Hlen. simpl. apply length_map.
Qed.

Lemma findConnection_routed m i sh id c :
  routed m → shards m !! i = Some sh → wsconns sh !! id = Some c →
  findConnection id m = Returns (Some c) ∧
  ∀ i' sh', shards m !! i' = Some sh' → is_Some (wsconns sh' !! id) → i' = i.
Proof.
  intros Hr Hs Hw. pose proof (Hr _ _ _ _ Hs Hw) as Hi. split.
  - unfold findConnection, shard_at. rewrite Hi. simpl. rewrite Hs. simpl.
    unfold shard_findConnection. by rewrite Hw.
  - intros i' sh' Hs' [c' Hw']. pose proof (Hr _ _ _ _ Hs' Hw'). congruence.
Qed.

(** C6.  In every manager that a sequence of calls can lead to from a new
    manager of [N] shards: the shard of an identifier is the Murmur3 hash
    of the identifier modulo [N]; a connection stored under [id] sits in
    that shard and in no other, and [findConnection] returns it; and a
    successful [newConnection] stores its connection in the shard where
    [findConnection] then finds it. *)
Theorem find_routes_like_newConnection (N : nat) (ops : list op)
  (m : WebSocketConnectionManager) (next : nat) (id : string) :
  0 < Z.of_nat N < 2 ^ 32 →
  apply_ops ops (newWebSocketConnectionManager N, 0%nat) = Returns (m, next) →
  (∃ i, shard_index id m = Returns i ∧
        Z.of_nat i = Sum32 (bytes id) mod Z.of_nat N ∧
        0 <= Sum32 (bytes id) < 2 ^ 32) ∧
  (∀ i sh c, shards m !! i = Some sh → wsconns sh !! id = Some c →
     shard_index id m = Returns i ∧
     findConnection id m = Returns (Some c) ∧
     ∀ i' sh', shards m !! i' = Some sh' → is_Some (wsconns sh' !! id) → i' = i) ∧
  (closed m = false →
     ∃ m' i sh,
       newConnection id next true m = Returns (m', inl next) ∧
       shard_index id m = Returns i ∧ shard_index id m' = Returns i ∧
       shards m' !! i = Some sh ∧ wsconns sh !! id = Some next ∧
       findConnection id m' = Returns (Some next)).
Proof.
  intros HN Hops.
  destruct (apply_ops_wf ops _ _ (new_manager_wf N HN)) as (m1 & n1 & Hops' & Hwf & Hlen).
  rewrite Hops in Hops'. injection Hops' as <- <-.
  simpl in Hlen. rewrite length_replicate in Hlen.
  destruct Hwf as (Hl & Hr & Ha). split; [|split].
  - destruct (shard_index_total id m Hl) as (i & sh & Hi & Hs). exists i.
    split; [done|]. apply shard_index_spec in Hi as [_ Hi].
    rewrite Hlen in Hi. unfold wrap32 in Hi. rewrite (Z.mod_small (Z.of_nat N)) in Hi by lia.
    split; [done|apply Sum32_range].
  - intros i sh c Hs Hw. split; [by eapply Hr|]. by eapply findConnection_routed.
  - intros Hc.
    destruct (newConnection_spec id next true m Hl Hc Ha) as (i & sh & Hi & Hs & Hn).
    destruct (newConnection_wf id true m next (conj Hl (conj Hr Ha)))
      as (m' & r & Hn' & (Hl' & Hr' & Ha') & _).
    rewrite Hn in Hn'. injection Hn' as <- <-.
    eexists _, i, _. split; [exact Hn|]. split; [done|].
    assert (Hs' : shards {| closed := closed m; shards := <[i:=(register id next true sh).1.1]> (shards m) |} !! i = Some (register id next true sh).1.1).
    { simpl. apply list_lookup_insert_eq. by eapply lookup_lt_Some. }
    assert (Hw' : wsconns (register id next true sh).1.1 !! id = Some next).
    { rewrite register_lookup by (by eapply allocated_fresh). by rewrite decide_True. }
    split; [by eapply Hr'|]. split; [done|]. split; [done|].
    by eapply findConnection_routed.
Qed.
End ManagerProperties.

Section ModelsProperties.
Import Models.

Lemma on_key_string j k upd h :
  on_key j k assert_string upd h =
    if ill_typed j k true then Panics
    else Returns (match j !! k with Some (JString x) => upd x h | _ => h end).
Proof.
  unfold on_key, ill_typed. destruct (j !! k) as [[]|]; reflexivity.
Qed.

Lemma on_key_float64 j k upd h :
  on_key j k assert_float64 upd h =
    if ill_typed j k false then Panics
    else Returns (match j !! k with Some (JNumber x) => upd x h | _ => h end).
Proof.
  unfold on_key, ill_typed. destruct (j !! k) as [[]|]; reflexivity.
Qed.

Lemma UnmarshalJSON_Decoded j h :
  if has_ill_typed j then UnmarshalJSON (Decoded j) h = Panics
  else ∃ h', UnmarshalJSON (Decoded j) h = Returns (h', None).
Proof.
  unfold UnmarshalJSON, has_ill_typed.
  rewrite !on_key_string.
  destruct (ill_typed j "ip" true); [reflexivity|]. simpl go_bind. rewrite !on_key_string.
  destruct (ill_typed j "request_id" true); [reflexivity|]. simpl go_bind. rewrite !on_key_string.
  destruct (ill_typed j "connection_type" true); [reflexivity|]. simpl go_bind. rewrite !on_key_string.
  destruct (ill_typed j "activity" true); [reflexivity|]. simpl go_bind. rewrite !on_key_float64.
  destruct (ill_typed j "timestamp" false); [reflexivity|]. simpl go_bind. rewrite !on_key_float64.
  destruct (ill_typed j "duration" false); [reflexivity|]. simpl go_bind.
  eexists; reflexivity.
Qed.

(** C10.  [UnmarshalJSON] panics on the object that binds "ip" to a
    number; on a decoded object it panics iff one of the six keys it reads
    holds a value of another type than the one asserted; and it returns an
    error iff the decoder does, leaving the receiver as it was. *)
Theorem UnmarshalJSON_not_total :
  (∀ h, UnmarshalJSON (Decoded {[ "ip"%string := JNumber 5 ]}) h = Panics) ∧
  (∀ j h, UnmarshalJSON (Decoded j) h = Panics ↔ has_ill_typed j = true) ∧
  (∀ d h h' e, UnmarshalJSON d h = Returns (h', Some e) ↔ d = DecodeError e ∧ h' = h).
Proof.
  split; [|split].
  - intros h. reflexivity.
  - intros j h. pose proof (UnmarshalJSON_Decoded j h) as H.
    destruct (has_ill_typed j).
    + split; auto.
    + destruct H as [h' H]. rewrite H. split; discriminate.
  - intros d h h' e. destruct d as [e'|j].
    + simpl. split.
      * intros H; inversion H; auto.
      * intros [H ->]; inversion H; auto.
    + pose proof (UnmarshalJSON_Decoded j h) as H.
      destruct (has_ill_typed j).
      * rewrite H. split; [discriminate|intros [? _]; discriminate].
      * destruct H as [h'' H]. rewrite H. split; [discriminate|intros [? _]; discriminate].
Qed.
Lemma lookup_set_if c k v (j : gmap string json) k' :
  set_if c k v j !! k' = if bool_decide (k' = k) && c then Some v else j !! k'.
Proof.
  unfold set_if. destruct c; case_bool_decide; subst; simplify_map_eq; done.
Qed.

Lemma lookup_flatten (meta : gmap string string) (j : gmap string json) k :
  (if (0 <? size meta)%nat then flatten meta j else j) !! k =
  match meta !! k with Some v => Some (JString v) | None => j !! k end.
Proof.
  destruct (0 <? size meta)%nat eqn:E.
  - unfold flatten. rewrite lookup_union, lookup_fmap.
    destruct (meta !! k); simpl; by destruct (j !! k).
  - apply Nat.ltb_ge in E.
    assert (meta = ∅) as -> by (apply map_size_empty_iff; lia).
    by rewrite lookup_empty.
Qed.

Ltac split_key k :=
  repeat first
    [ case_bool_decide; [try subst k; try discriminate; try done | try done]
    | case_decide; [try subst k; try discriminate; try done | try done] ].

Lemma status_map_lookup h k :
  status_map h !! k =
    match history_json h k with
    | Some v => Some v
    | None =>
        match Metadata h !! k with
        | Some v => Some (JString v)
        | None => field_json h k
        end
    end.
Proof.
  unfold status_map, history_json, field_json.
  rewrite lookup_set_if, lookup_flatten, !lookup_set_if, lookup_empty.
  split_key k; simpl;
    repeat (match goal with |- context [if ?c then _ else _] => destruct c end);
    simpl; try reflexivity; destruct (Metadata h !! _); reflexivity.
Qed.
(** C9 (counterexample).  A status with an empty [Status] field and a
    metadata entry named "status": the serialization has the key "status"
    although the field that belongs to it is zero. *)
Lemma metadata_key_shadows_zero_field :
  let h := mkStatus EmptyString EmptyString zeroTime zeroTime EmptyString 0 zeroTime "dev-1"
                    {[ "status" := "up" ]} [] in
  field_nonzero h "status" = false ∧
  status_map h !! "status" = Some (JString "up").
Proof. split; vm_compute; reflexivity. Qed.

(** C9 (amended).  The serialization of a status holds under key [k]: the
    history array when [k] is "connection_history" and the history is not
    empty; else the metadata entry named [k] when there is one; else the
    value of the field that belongs to [k] when that field is not zero.
    So a key is present iff its field is non-zero or the metadata has an
    entry of that name, metadata entries sit at top level, and every number
    written is the millisecond value of a timestamp or of the duration. *)
Theorem MarshalJSON_members (h : ConnectionStatus) (k : string) :
  status_map h !! k =
    match history_json h k with
    | Some v => Some v
    | None =>
        match Metadata h !! k with
        | Some v => Some (JString v)
        | None => field_json h k
        end
    end ∧
  (is_Some (status_map h !! k) ↔
     field_nonzero h k = true ∨ is_Some (Metadata h !! k)) ∧
  (∀ v, Metadata h !! k = Some v →
        status_map h !! k = Some (JString v) ∨
        (k = "connection_history" ∧ Histories h ≠ [])) ∧
  (∀ n, status_map h !! k = Some (JNumber n) →
        ∃ nano, n = NanoToMilli nano ∧ Z.abs (nano - n * 1000000) < 1000000 ∧
                (nano = UnixNano (ConnectedAt h) ∨ nano = UnixNano (DisconnectedAt h) ∨
                 nano = UnixNano (LastPingedAt h) ∨ nano = Duration h)).
Proof.
  pose proof (status_map_lookup h k) as Hl. split; [exact Hl|]. split; [|split].
  - rewrite Hl. unfold field_nonzero.
    destruct (history_json h k) as [v|] eqn:Eh.
    { split; [intros _; left|by eauto]. rewrite (bool_decide_eq_true_2 (is_Some (Some v))) by eauto.
      by rewrite orb_true_r. }
    rewrite (bool_decide_eq_false_2 (is_Some None)) by (by intros [? ?]).
    rewrite orb_false_r.
    destruct (Metadata h !! k) as [v|]; [split; eauto|].
    destruct (field_json h k) as [v|].
    + rewrite bool_decide_eq_true_2 by eauto. split; eauto.
    + rewrite bool_decide_eq_false_2 by (by intros [? ?]).
      split; [by intros [? ?]|]. intros [?|[? ?]]; done.
  - intros v Hv. rewrite Hl, Hv. unfold history_json.
    case_decide as Ek; [|by left]. destruct (Histories h); [by left|right]. done.
  - intros n. rewrite Hl. unfold history_json, field_json.
    assert (Hms : ∀ nano, Z.abs (nano - NanoToMilli nano * 1000000) < 1000000).
    { intros nano. unfold NanoToMilli, Millisecond.
      pose proof (Z.quot_rem' nano 1000000).
      pose proof (Z.rem_bound_abs nano 1000000). 
      assert (Z.abs (Z.rem nano 1000000) < 1000000) by lia. lia. }
    repeat case_decide;
      repeat (match goal with |- context [if ?c then _ else _] => destruct c end);
      destruct (Metadata h !! k); intros [= <-]; eexists; (split; [reflexivity|]);
      (split; [apply Hms|]); tauto.
Qed.
End ModelsProperties.

(* ===================================================================== *)
(** * The theorems at work on the sample connection and manager          *)
(* ===================================================================== *)

Section EngineScenarios.
Import Connections.

(** A caller sends a request and the connection is closed; three more
    calls of [Close] add nothing. *)
Lemma Close_is_idempotent_witness :
  let sched := [SendSyncRequest 0 "ping"; CallClose] in
  run sched (init cfg0 1000) = Next (state_after sched) ∧ (1 <= 3)%nat ∧
  ∃ s', run (repeat CallClose 3) (state_after sched) = Next s' ∧
        close_calls s' = (close_calls (state_after sched) + 3)%nat ∧
        close_effects s' = body_effects.
Proof.
  intros sched.
  assert (H1 : run sched (init cfg0 1000) = Next (state_after sched))
    by (vm_compute; reflexivity).
  assert (H2 : (1 <= 3)%nat) by lia.
  split; [exact H1|]. split; [exact H2|].
  destruct (Close_is_idempotent cfg0 1000 sched _ 3 H1 H2)
    as (_ & _ & s' & Hr & Hn & He & _).
  exists s'. auto.
Defined.

(** A send on the sample connection after [Close]. *)
Lemma send_on_closed_connection_witness :
  run [CallClose] (init cfg0 1000) = Next (state_after [CallClose]) ∧
  closed (conn (state_after [CallClose])) = true ∧
  ∃ s', step (SendAsyncRequest 0 "x") (state_after [CallClose]) = Next s' ∧
        returned 0 s' = Some (EmptyString, Some ErrConnectionClosed).
Proof.
  assert (H1 : run [CallClose] (init cfg0 1000) = Next (state_after [CallClose]))
    by (vm_compute; reflexivity).
  assert (H2 : closed (conn (state_after [CallClose])) = true)
    by (vm_compute; reflexivity).
  split; [exact H1|]. split; [exact H2|].
  apply (send_on_closed_connection cfg0 1000 [CallClose] _ 0%nat
           AsyncRequestMessage "x" H1 H2).
  vm_compute. reflexivity.
Defined.

(** The writer has taken a synchronous request from the inbox. *)
Lemma wListen_completes_the_slot_witness :
  let s := state_after [SendSyncRequest 0 "ping"; WRecv] in
  let req := mkReq (mkMessage SyncRequestMessage "3e8" "ping") 0 in
  writer s = WWriting req ∧ chans s !! req_respCh req = Some [] ∧
  ∃ s', step (WWrite okw) s = Next s' ∧ close_calls s' = close_calls s.
Proof.
  intros s req.
  assert (H1 : writer s = WWriting req) by (vm_compute; reflexivity).
  assert (H2 : chans s !! req_respCh req = Some []) by (vm_compute; reflexivity).
  split; [exact H1|]. split; [exact H2|].
  destruct (wListen_completes_the_slot s okw req H1 H2) as (s' & Hs & _ & Hc & _).
  exists s'. auto.
Defined.

(** The request is pending and the reader is about to read its response. *)
Lemma rListen_resolves_the_response_witness :
  let s := state_after [SendSyncRequest 0 "ping"; WRecv; WWrite okw; RStep] in
  let m := mkMessage ResponseMessage "3e8" "pong" in
  reader s = RReading ∧ MessageType m = ResponseMessage ∧
  (∀ ch, find (MessageId m) s = Some ch → chans s !! ch = Some []) ∧
  match find (MessageId m) s with
  | Some ch => ∃ s1, step (RRead (ReadsBody (inl m))) s = Next s1
  | None => False
  end.
Proof.
  intros s m.
  assert (H1 : reader s = RReading) by (vm_compute; reflexivity).
  assert (H2 : MessageType m = ResponseMessage) by reflexivity.
  assert (Hf : find (MessageId m) s = Some 0%nat) by (vm_compute; reflexivity).
  assert (H3 : ∀ ch, find (MessageId m) s = Some ch → chans s !! ch = Some []).
  { intros ch. rewrite Hf. intros [= <-]. vm_compute. reflexivity. }
  split; [exact H1|]. split; [exact H2|]. split; [exact H3|].
  pose proof (rListen_resolves_the_response s m H1 H2 H3) as H.
  destruct (find (MessageId m) s) as [ch|]; [|discriminate Hf].
  destruct H as (s1 & _ & _ & _ & Hs & _). exists s1. exact Hs.
Defined.

(** An asynchronous send on the connection as it starts. *)
Lemma send_async_waits_for_the_write_witness :
  senders (init cfg0 1000) !! 0%nat = None ∧
  wch_closed (conn (init cfg0 1000)) = false ∧
  (length (wch (conn (init cfg0 1000))) < RequestQueueSize (config (init cfg0 1000)))%nat ∧
  ∃ s1, step (SendAsyncRequest 0 "x") (init cfg0 1000) = Next s1 ∧
        returned 0 s1 = None.
Proof.
  assert (H1 : senders (init cfg0 1000) !! 0%nat = None) by reflexivity.
  assert (H2 : wch_closed (conn (init cfg0 1000)) = false) by reflexivity.
  assert (H3 : (length (wch (conn (init cfg0 1000)))
                < RequestQueueSize (config (init cfg0 1000)))%nat) by (simpl; lia).
  split; [exact H1|]. split; [exact H2|]. split; [exact H3|].
  destruct (send_async_waits_for_the_write (init cfg0 1000) 0%nat "x" H1 H2 H3)
    as (s1 & Hs & _ & Hr & _).
  exists s1. auto.
Defined.

(** Two sends, one microsecond apart. *)
Lemma message_id_is_the_clock_witness :
  int64 (now (init cfg0 1000)) ∧ int64 (now (init cfg0 2000)) ∧
  wch_closed (conn (init cfg0 1000)) = false ∧
  wch_closed (conn (init cfg0 2000)) = false ∧
  ∃ q1 q2, allocated_id q1 = Some (FormatInt16 1000) ∧
           allocated_id q2 = Some (FormatInt16 2000) ∧
           (allocated_id q1 = allocated_id q2 ↔ 1000 = 2000).
Proof.
  assert (H1 : int64 (now (init cfg0 1000))) by (unfold int64; simpl; lia).
  assert (H2 : int64 (now (init cfg0 2000))) by (unfold int64; simpl; lia).
  split; [exact H1|]. split; [exact H2|]. split; [reflexivity|]. split; [reflexivity|].
  destruct (message_id_is_the_clock (init cfg0 1000) (init cfg0 2000)
              SyncRequestMessage SyncRequestMessage "a" "b" H1 H2 eq_refl eq_refl)
    as (q1 & q2 & _ & _ & _ & _ & A1 & A2 & Hiff).
  exists q1, q2. auto.
Defined.
End EngineScenarios.

Section ManagerScenarios.
Import Manager.

(** A third device connects to the manager of two devices, four shards. *)
Lemma find_routes_like_newConnection_witness :
  0 < Z.of_nat 4 < 2 ^ 32 ∧
  apply_ops two_devices (newWebSocketConnectionManager 4, 0%nat)
    = Returns ((world_after 4 two_devices).1, 2%nat) ∧
  ∃ m', newConnection "dev-3" 2 true (world_after 4 two_devices).1
          = Returns (m', inl 2%nat) ∧
        findConnection "dev-3" m' = Returns (Some 2%nat).
Proof.
  assert (H1 : 0 < Z.of_nat 4 < 2 ^ 32) by (simpl; lia).
  assert (H2 : apply_ops two_devices (newWebSocketConnectionManager 4, 0%nat)
               = Returns ((world_after 4 two_devices).1, 2%nat))
    by (vm_compute; reflexivity).
  split; [exact H1|]. split; [exact H2|].
  destruct (find_routes_like_newConnection 4 two_devices _ _ "dev-3" H1 H2)
    as (_ & _ & H).
  destruct H as (m' & i & sh & Hn & _ & _ & _ & _ & Hf); [vm_compute; reflexivity|].
  exists m'. auto.
Defined.
End ManagerScenarios.
